(** * The LOWESS smoother of [src/all/4th.py]

    A shallow embedding of [my_lowess] (with its nested helpers [w] and
    [weighted_linear_regression]) and of its driver [lowess], followed by
    the properties of the smoother; then the data handling of the
    application that calls it ([validate_input], [read_from_file], and of
    [create_plot] the arrays it computes and its tick positions) and its
    properties.

    Numbers.  The program computes on NumPy [int64] index arrays and
    [float64] value arrays.  Index arithmetic is modelled on [Z].  Values
    are modelled by [num]: exact rationals extended with the three IEEE
    special values.  Division by zero, the arithmetic of infinities and the
    behaviour of NaN in comparisons follow IEEE 754 as NumPy exposes it;
    rounding, overflow and the sign of zero are outside the model.  The
    theorems below are therefore about what does not depend on rounding:
    the windows, the exceptions, the places where NaN arises, and the
    weights [0] and [1], which [float64] computes exactly.  They say
    nothing about the last digits of a smoothed value.

    Errors.  The three places where the Python code can raise (indexing an
    array out of range, [max] of an empty sequence, [[0][0]] on an empty
    match list) are modelled by the result type [res]. *)

From Stdlib Require Import ZArith QArith Qcanon Lia Lqa Ascii String.
From stdpp Require Import base tactics option numbers list strings.

Local Open Scope Z_scope.

(** ** Extended exact arithmetic *)

Inductive num : Type :=
  | Fin (q : Qc)
  | PInf
  | NInf
  | NaN.

Global Instance num_eq_dec : EqDecision num.
Proof. solve_decision. Defined.

Definition of_Z (z : Z) : num := Fin (Qc_of_Z z).

Definition is_finite (x : num) : bool :=
  match x with Fin _ => true | _ => false end.

Definition fopp (x : num) : num :=
  match x with
  | Fin a => Fin (- a)%Qc
  | PInf => NInf
  | NInf => PInf
  | NaN => NaN
  end.

Definition fabs (x : num) : num :=
  match x with
  | Fin a => Fin (if decide (a < 0)%Qc then (- a)%Qc else a)
  | PInf | NInf => PInf
  | NaN => NaN
  end.

Definition fadd (x y : num) : num :=
  match x, y with
  | NaN, _ | _, NaN => NaN
  | Fin a, Fin b => Fin (a + b)%Qc
  | PInf, NInf | NInf, PInf => NaN
  | PInf, _ | _, PInf => PInf
  | NInf, _ | _, NInf => NInf
  end.

Definition fsub (x y : num) : num := fadd x (fopp y).

(** An infinity scaled by the finite value [b]: [inf * 0] is NaN. *)
Definition scale_inf (pos : bool) (b : Qc) : num :=
  match (b ?= 0)%Qc with
  | Eq => NaN
  | Gt => if pos then PInf else NInf
  | Lt => if pos then NInf else PInf
  end.

Definition fmul (x y : num) : num :=
  match x, y with
  | NaN, _ | _, NaN => NaN
  | Fin a, Fin b => Fin (a * b)%Qc
  | PInf, Fin b | Fin b, PInf => scale_inf true b
  | NInf, Fin b | Fin b, NInf => scale_inf false b
  | PInf, PInf | NInf, NInf => PInf
  | PInf, NInf | NInf, PInf => NInf
  end.

(** NumPy's true division: a zero divisor gives NaN for [0 / 0] and a
    signed infinity otherwise (a warning, never an exception). *)
Definition fdiv (x y : num) : num :=
  match x, y with
  | NaN, _ | _, NaN => NaN
  | Fin a, Fin b =>
      if decide (b = 0)%Qc then
        match (a ?= 0)%Qc with Eq => NaN | Gt => PInf | Lt => NInf end
      else Fin (a / b)%Qc
  | Fin _, (PInf | NInf) => Fin 0%Qc
  | PInf, Fin b => if decide (b < 0)%Qc then NInf else PInf
  | NInf, Fin b => if decide (b < 0)%Qc then PInf else NInf
  | (PInf | NInf), (PInf | NInf) => NaN
  end.

(** [x ** k] for a literal exponent [k]. *)
Fixpoint fpow (x : num) (k : nat) : num :=
  match k with
  | O => Fin 1%Qc
  | S k' => fmul x (fpow x k')
  end.

(** [x <= y]: false as soon as a NaN is involved. *)
Definition fle (x y : num) : bool :=
  match x, y with
  | NaN, _ | _, NaN => false
  | Fin a, Fin b => bool_decide (a ≤ b)%Qc
  | NInf, _ | _, PInf => true
  | PInf, _ | _, NInf => false
  end.

(** [x != y]: true as soon as a NaN is involved. *)
Definition fne (x y : num) : bool :=
  match x, y with
  | NaN, _ | _, NaN => true
  | _, _ => negb (bool_decide (x = y))
  end.

(** [np.sum] of a one-dimensional array.  In exact arithmetic the order
    of the additions is immaterial. *)
Fixpoint np_sum (l : list num) : num :=
  match l with
  | [] => Fin 0%Qc
  | x :: l' => fadd x (np_sum l')
  end.

(** Element-wise product of two arrays of the same shape. *)
Definition vmul (x y : list num) : list num := zip_with fmul x y.

(** ** Exceptions *)

Inductive exn : Type := ValueError | IndexError.

Inductive res (A : Type) : Type :=
  | Ok (a : A)
  | Raise (e : exn).
Arguments Ok {A} a.
Arguments Raise {A} e.

Global Instance exn_eq_dec : EqDecision exn.
Proof. solve_decision. Defined.

Global Instance res_eq_dec {A : Type} `{EqDecision A} : EqDecision (res A).
Proof. solve_decision. Defined.

Definition bind {A B : Type} (m : res A) (k : A → res B) : res B :=
  match m with
  | Ok a => k a
  | Raise e => Raise e
  end.

Notation "x ←! m ; k" := (bind m (λ x, k))
  (at level 100, m at next level, right associativity).

Definition of_option {A : Type} (e : exn) (o : option A) : res A :=
  match o with Some a => Ok a | None => Raise e end.

(** ** NumPy and builtin helpers used by [my_lowess] *)

(** [np.arange(start, stop)]: empty when [stop <= start]. *)
Definition np_arange (start stop : Z) : list Z := seqZ start (stop - start).

(** [a[k]] for one integer [k]: negative indices count from the end, and
    anything outside [-len, len) raises [IndexError]. *)
Definition item {A : Type} (a : list A) (k : Z) : res A :=
  let k' := if k <? 0 then k + Z.of_nat (length a) else k in
  if k' <? 0 then Raise IndexError
  else of_option IndexError (a !! Z.to_nat k').

(** [a[window]] for an index array [window]. *)
Fixpoint take_idx {A : Type} (a : list A) (window : list Z) : res (list A) :=
  match window with
  | [] => Ok []
  | k :: ks => v ←! item a k; vs ←! take_idx a ks; Ok (v :: vs)
  end.

(** The builtin [max] over a sequence of integers. *)
Definition py_max (l : list Z) : res Z :=
  match l with
  | [] => Raise ValueError
  | z :: l' => Ok (foldl Z.max z l')
  end.

(** [np.where(xs == i)[0]]: the positions holding [i], in order. *)
Fixpoint np_where (xs : list Z) (i : Z) (pos : nat) : list nat :=
  match xs with
  | [] => []
  | x :: xs' =>
      if decide (x = i) then pos :: np_where xs' i (S pos)
      else np_where xs' i (S pos)
  end.

(** ** The smoother *)

(** The tri-cube weight [w]. *)
Definition w (x : num) : num :=
  if fle (fabs x) (Fin 1%Qc)
  then fpow (fsub (Fin 1%Qc) (fpow (fabs x) 3)) 3
  else Fin 0%Qc.

Definition weighted_linear_regression (x y ws : list num) : list num :=
  let w_sum := np_sum ws in
  let x_mean :=
    if fne w_sum (Fin 0%Qc) then fdiv (np_sum (vmul x ws)) w_sum
    else Fin 0%Qc in
  let y_mean :=
    if fne w_sum (Fin 0%Qc) then fdiv (np_sum (vmul y ws)) w_sum
    else Fin 0%Qc in
  let x_diff := (λ v, fsub v x_mean) <$> x in
  let y_diff := (λ v, fsub v y_mean) <$> y in
  let b :=
    fdiv (np_sum (vmul ws (vmul x_diff y_diff)))
         (np_sum (vmul ws ((λ v, fpow v 2) <$> x_diff))) in
  let a := fsub y_mean (fmul b x_mean) in
  (λ v, fadd a (fmul b v)) <$> x.

(** The intermediate quantities of [weighted_linear_regression], named so
    that statements can refer to them. *)
Definition wlr_x_mean (x ws : list num) : num :=
  if fne (np_sum ws) (Fin 0%Qc) then fdiv (np_sum (vmul x ws)) (np_sum ws)
  else Fin 0%Qc.

Definition wlr_y_mean (y ws : list num) : num :=
  if fne (np_sum ws) (Fin 0%Qc) then fdiv (np_sum (vmul y ws)) (np_sum ws)
  else Fin 0%Qc.

Definition wlr_num (x y ws : list num) : num :=
  np_sum (vmul ws (vmul ((λ v, fsub v (wlr_x_mean x ws)) <$> x)
                        ((λ v, fsub v (wlr_y_mean y ws)) <$> y))).

Definition wlr_den (x ws : list num) : num :=
  np_sum (vmul ws ((λ v, fpow v 2) <$>
                   ((λ v, fsub v (wlr_x_mean x ws)) <$> x))).

Definition wlr_slope (x y ws : list num) : num :=
  fdiv (wlr_num x y ws) (wlr_den x ws).

Definition wlr_intercept (x y ws : list num) : num :=
  fsub (wlr_y_mean y ws) (fmul (wlr_slope x y ws) (wlr_x_mean x ws)).

(** The window [start, end) chosen for target [i] in a sequence of [n]
    samples, lines 37-46. *)
Definition window_bounds (n window_size i : Z) : Z * Z :=
  let start := i - window_size in
  let end_ := i + window_size + 1 in
  let '(start, end_) :=
    if start <? 0 then (0, end_ - start) else (start, end_) in
  let '(start, end_) :=
    if end_ >? n then (start - (end_ - n), n) else (start, end_) in
  (Z.max start 0, Z.min end_ n).

(** The offsets [x_local - i]. *)
Definition offsets (x_local : list Z) (i : Z) : list Z :=
  (λ x, x - i) <$> x_local.

(** The weight array handed to the regression, line 54. *)
Definition weights (x_local : list Z) (i : Z) : res (list num) :=
  m ←! py_max (Z.abs <$> offsets x_local i);
  Ok ((λ d, w (fdiv (of_Z d) (of_Z m))) <$> offsets x_local i).

(** One iteration of the loop: the value stored in [result[i]]. *)
Definition smooth_at (data_x : list Z) (data_y : list num)
    (window_size i : Z) : res num :=
  let '(start, end_) :=
    window_bounds (Z.of_nat (length data_y)) window_size i in
  let window := np_arange start end_ in
  x_local ←! take_idx data_x window;
  y_local ←! take_idx data_y window;
  ws ←! weights x_local i;
  let fitted :=
    weighted_linear_regression (of_Z <$> offsets x_local i) y_local ws in
  pos ←! of_option IndexError (head (np_where x_local i 0));
  of_option IndexError (fitted !! pos).

Fixpoint lowess_loop (data_x : list Z) (data_y : list num) (window_size : Z)
    (range : list nat) (result : list num) : res (list num) :=
  match range with
  | [] => Ok result
  | i :: range' =>
      v ←! smooth_at data_x data_y window_size (Z.of_nat i);
      lowess_loop data_x data_y window_size range' (<[i := v]> result)
  end.

Definition my_lowess (data_x : list Z) (data_y : list num)
    (window_size : Z) : res (list num) :=
  lowess_loop data_x data_y window_size
    (seq 0 (length data_y)) (replicate (length data_y) (Fin 0%Qc)).

(** The driver, on the path taken when [SM_LOWESS] is unset (the other
    path hands the data to an external library). *)
Definition lowess (data_y : list num) (windows_size : Z) : res (list num) :=
  my_lowess (np_arange 0 (Z.of_nat (length data_y))) data_y windows_size.

(** ** The window as the specification words it

    Start from [[i-h, i+h+1)]; a negative lower bound shifts the whole
    window right by the deficit, an upper bound beyond [n] shifts it left
    by the overflow; both bounds are then clipped to [[0, n]]. *)
Definition clip (n z : Z) : Z := Z.max 0 (Z.min z n).

Definition spec_window (n h i : Z) : Z * Z :=
  let lo := i - h in
  let hi := i + h + 1 in
  let deficit := if lo <? 0 then 0 - lo else 0 in
  let '(lo, hi) := (lo + deficit, hi + deficit) in
  let overflow := if hi >? n then hi - n else 0 in
  let '(lo, hi) := (lo - overflow, hi - overflow) in
  (clip n lo, clip n hi).

(** ** Notions used in the statements and proofs *)

Global Instance num_inhabited : Inhabited num := populate NaN.

(** The samples [x_local] of the window of target [i] when the positions
    are [np.arange(n)], as [lowess] passes them. *)
Definition local_x (n window_size i : Z) : list Z :=
  np_arange (window_bounds n window_size i).1 (window_bounds n window_size i).2.

(** The slope denominator of the window of target [i] under [lowess]. *)
Definition window_den (n window_size i : Z) : res num :=
  let x_local := local_x n window_size i in
  ws ←! weights x_local i;
  Ok (wlr_den (of_Z <$> offsets x_local i) ws).

(** The assignment [result[i] = g i]. *)
Definition store (g : nat → num) (result : list num) (i : nat) : list num :=
  <[i := g i]> result.

(** The value of one iteration when it succeeds, [NaN] otherwise; only
    used to name the successful values. *)
Definition value_at (data_x : list Z) (data_y : list num) (h : Z) (i : nat) : num :=
  match smooth_at data_x data_y h (Z.of_nat i) with
  | Ok v => v
  | Raise _ => NaN
  end.

Definition qsum (l : list Qc) : Qc := foldr Qcplus 0%Qc l.

(** The sum of [F d] over the offsets [d] of a window. *)
Definition sumZ (F : Z → Qc) (D : list Z) : Qc := qsum (F <$> D).

(** The rational value of a weight. *)
Definition wq (u : num) : Qc :=
  match w u with Fin q => q | _ => 0%Qc end.

(** An array of finite values, given by a rational function of the offset. *)
Definition finl (F : Z → Qc) (D : list Z) : list num := (λ d, Fin (F d)) <$> D.

(** The weighted mean of [F], the slope denominator and the slope
    numerator of a window with offsets [D], rational weights [wt] and
    rational values [Y]. *)
Definition q_mean (D : list Z) (wt F : Z → Qc) : Qc :=
  if decide (sumZ wt D = 0%Qc) then 0%Qc
  else (sumZ (λ d, F d * wt d) D / sumZ wt D)%Qc.

Definition q_den (D : list Z) (wt : Z → Qc) : Qc :=
  sumZ (λ d, wt d * ((Qc_of_Z d + - q_mean D wt Qc_of_Z) *
                     ((Qc_of_Z d + - q_mean D wt Qc_of_Z) * 1)))%Qc D.

(** The rational weight of offset [d] in a window whose largest absolute
    offset is [m]. *)
Definition weight_fn (m d : Z) : Qc := wq (fdiv (of_Z d) (of_Z m)).

(** ** The application around the smoother

    [WeatherDataEntry], [WeatherData] and the data-handling parts of [App]
    (lines 71-210 of [src/all/4th.py]).  The widgets, the file dialog and
    the drawing calls are not modelled.

    The builtins [str.split], [int] and [float] are parameters: [py_int]
    and [py_float] return [None] where the builtin raises [ValueError]. *)

Record Builtins : Type := {
  str_split : string → list string;
  py_int : string → option Z;
  py_float : string → option num
}.

(** The messages of the exceptions the application raises itself. *)
Inductive message : Type :=
  | TooFewEntries        (* len(lines) < 5 *)
  | BadFileFormat        (* a line without exactly three fields *)
  | YearsNotConsecutive  (* two successive years that do not differ by 1 *)
  | InvalidEntry.        (* 'Invalid weather data entry ...' *)

Inductive error : Type :=
  | PyError (e : exn)
  | Exception (m : message)
  | TypeError.

Inductive outcome (A : Type) : Type :=
  | Done (a : A)
  | Fail (e : error).
Arguments Done {A} a.
Arguments Fail {A} e.

Definition and_then {A B : Type} (m : outcome A) (k : A → outcome B) : outcome B :=
  match m with
  | Done a => k a
  | Fail e => Fail e
  end.

Notation "x ←? m ; k" := (and_then m (λ x, k))
  (at level 100, m at next level, right associativity).

Record WeatherDataEntry : Type := {
  year : Z;
  temperature : num;
  temperature_smoothed : num
}.

(** [WeatherDataEntry.try_from]: a [ValueError] of [int] or [float] becomes
    the exception 'Invalid weather data entry'. *)
Definition try_from (B : Builtins)
    (year_s temperature_s temperature_smoothed_s : string)
    : outcome WeatherDataEntry :=
  match py_int B year_s with
  | None => Fail (Exception InvalidEntry)
  | Some y =>
      match py_float B temperature_s with
      | None => Fail (Exception InvalidEntry)
      | Some t =>
          match py_float B temperature_smoothed_s with
          | None => Fail (Exception InvalidEntry)
          | Some s =>
              Done {| year := y; temperature := t; temperature_smoothed := s |}
          end
      end
  end.

Record WeatherData : Type := { data : list WeatherDataEntry }.

(** [WeatherData(data)]: [None] and the empty list both give an empty
    data set. *)
Definition WeatherData_init (d : option (list WeatherDataEntry)) : WeatherData :=
  match d with
  | Some (e :: es) => {| data := e :: es |}
  | _ => {| data := [] |}
  end.

Definition get_year (wd : WeatherData) : list Z := year <$> data wd.

Definition get_temperature (wd : WeatherData) : list num :=
  temperature <$> data wd.

Definition get_temperature_smoothed (wd : WeatherData) : list num :=
  temperature_smoothed <$> data wd.

(** *** [App.validate_input] *)

(** The loop over the lines that checks the number of fields. *)
Fixpoint check_fields (B : Builtins) (lines : list string) : outcome unit :=
  match lines with
  | [] => Done tt
  | line :: rest =>
      if decide (length (str_split B line) = 3%nat) then check_fields B rest
      else Fail (Exception BadFileFormat)
  end.

(** [int(line.split()[0])]. *)
Definition first_int (B : Builtins) (line : string) : outcome Z :=
  match str_split B line with
  | [] => Fail (PyError IndexError)
  | field :: _ =>
      match py_int B field with
      | Some y => Done y
      | None => Fail (PyError ValueError)
      end
  end.

(** The list comprehension that builds [years]. *)
Fixpoint years_of (B : Builtins) (lines : list string) : outcome (list Z) :=
  match lines with
  | [] => Done []
  | line :: rest =>
      y ←? first_int B line; ys ←? years_of B rest; Done (y :: ys)
  end.

(** The loop [for i in range(len(years) - 1)] over the given indices. *)
Fixpoint check_consecutive (years : list Z) (range : list nat) : outcome unit :=
  match range with
  | [] => Done tt
  | i :: rest =>
      match years !! S i, years !! i with
      | Some next, Some this =>
          if decide (next - this = 1) then check_consecutive years rest
          else Fail (Exception YearsNotConsecutive)
      | _, _ => Fail (PyError IndexError)
      end
  end.

Definition validate_input (B : Builtins) (lines : list string) : outcome unit :=
  if decide (length lines < 5)%nat then Fail (Exception TooFewEntries)
  else
    _ ←? check_fields B lines;
    years ←? years_of B lines;
    check_consecutive years (seq 0 (length years - 1)).

(** *** [App.create_plot]: the tick positions and the arrays it computes *)

(** The builtin [min] over a sequence of integers. *)
Definition py_min (l : list Z) : res Z :=
  match l with
  | [] => Raise ValueError
  | z :: l' => Ok (foldl Z.min z l')
  end.

(** [range(start, stop, step)] as a list. *)
Definition py_range (start stop step : Z) : res (list Z) :=
  if decide (step = 0) then Raise ValueError
  else if decide (0 < step) then
    Ok ((λ k, start + k * step) <$> seqZ 0 ((stop - start + step - 1) / step))
  else
    Ok ((λ k, start + k * step) <$>
          seqZ 0 ((start - stop - step - 1) / (- step))).

(** [step = 20 if width > 100 else 10 if width > 50 else 5]. *)
Definition tick_step (width : Z) : Z :=
  if width >? 100 then 20 else if width >? 50 then 10 else 5.

(** The argument of [ax.set_xticks]; [//] is floor division, as [Z.div] is
    for a positive divisor. *)
Definition xticks (years : list Z) : res (list Z) :=
  hi ←! py_max years;
  lo ←! py_min years;
  let step := tick_step (hi - lo) in
  lo' ←! py_min years;
  hi' ←! py_max years;
  py_range (((lo' - 1) / step + 1) * step) (hi' / step * step + 1) step.

(** Subtraction of two one-dimensional arrays, with NumPy's broadcasting
    of an array of length one. *)
Definition np_sub (a b : list num) : res (list num) :=
  if decide (length a = length b) then Ok (zip_with fsub a b)
  else match a, b with
       | [x], _ => Ok ((λ y, fsub x y) <$> b)
       | _, [y] => Ok ((λ x, fsub x y) <$> a)
       | _, _ => Raise ValueError
       end.

(** The arrays that [create_plot] computes before it draws (lines
    172-176).  The calls into matplotlib that follow (lines 178-212) are
    not modelled, so this is the first part of [create_plot], not the
    whole method; [xticks] above is the argument it later passes to
    [ax.set_xticks]. *)
Record plot_arrays : Type := {
  plot_years : list Z;
  plot_temperatures : list num;
  plot_std_lowess : list num;
  plot_my_lowess : list num;
  plot_diff : list num
}.

Definition create_plot_arrays (wd : WeatherData) : res plot_arrays :=
  let years := get_year wd in
  let temperatures := get_temperature wd in
  let std_lowess := get_temperature_smoothed wd in
  my_lowess ←! lowess temperatures 5;
  diff ←! np_sub std_lowess my_lowess;
  Ok {| plot_years := years; plot_temperatures := temperatures;
        plot_std_lowess := std_lowess; plot_my_lowess := my_lowess;
        plot_diff := diff |}.

(** *** [App.read_from_file], after the file has been read *)

(** [WeatherDataEntry.try_from] applied to the unpacked fields of
    [line.split()]: any number of fields other than three is a
    [TypeError]. *)
Definition entry_of_line (B : Builtins) (line : string) : outcome WeatherDataEntry :=
  match str_split B line with
  | [y; t; s] => try_from B y t s
  | _ => Fail TypeError
  end.

Fixpoint entries_of (B : Builtins) (lines : list string)
    : outcome (list WeatherDataEntry) :=
  match lines with
  | [] => Done []
  | line :: rest =>
      e ←? entry_of_line B line; es ←? entries_of B rest; Done (e :: es)
  end.

(** The three ways the handler ends: the exception of [validate_input] is
    caught and shown in the status label; an exception raised while the
    entries are decoded leaves the handler; or [create_plot] is called on
    the decoded data, and the handler ends as that call does (what
    [create_plot] then does, drawing included, is not part of this
    model). *)
Inductive load_result : Type :=
  | LoadFailed (e : error)
  | Uncaught (e : error)
  | CallsCreatePlot (wd : WeatherData).

(** [file_lines] is the result of [f.readlines()]; its first line is
    skipped. *)
Definition read_from_file (B : Builtins) (file_lines : list string) : load_result :=
  let lines := drop 1 file_lines in
  match validate_input B lines with
  | Fail e => LoadFailed e
  | Done _ =>
      match entries_of B lines with
      | Fail e => Uncaught e
      | Done entries => CallsCreatePlot (WeatherData_init (Some entries))
      end
  end.

(** *** The builtins on plain ASCII text

    An instance of [Builtins] used to run the model on examples: splitting
    at ASCII whitespace, and numbers written as an optional sign followed
    by decimal digits.  The theorems below hold for every instance. *)

Definition is_space (a : ascii) : bool :=
  let n := nat_of_ascii a in
  ((n =? 32) || ((9 <=? n) && (n <=? 13)) || ((28 <=? n) && (n <=? 31)))%nat.

Fixpoint split_go (s cur : string) : list string :=
  match s with
  | EmptyString => if decide (cur = EmptyString) then [] else [cur]
  | String a s' =>
      if is_space a then
        if decide (cur = EmptyString) then split_go s' EmptyString
        else cur :: split_go s' EmptyString
      else split_go s' (String.app cur (String a EmptyString))
  end.

Definition digit_value (a : ascii) : option Z :=
  let n := nat_of_ascii a in
  if ((48 <=? n) && (n <=? 57))%nat then Some (Z.of_nat (n - 48)) else None.

Fixpoint digits_value (s : string) (acc : Z) : option Z :=
  match s with
  | EmptyString => Some acc
  | String a s' =>
      match digit_value a with
      | Some d => digits_value s' (10 * acc + d)
      | None => None
      end
  end.

Definition unsigned_value (s : string) : option Z :=
  match s with
  | EmptyString => None
  | _ => digits_value s 0
  end.

Definition int_ascii (s : string) : option Z :=
  match s with
  | String a s' =>
      if decide (a = "-"%char) then Z.opp <$> unsigned_value s'
      else if decide (a = "+"%char) then unsigned_value s'
      else unsigned_value s
  | EmptyString => None
  end.

Definition ascii_builtins : Builtins :=
  {| str_split := λ s, split_go s EmptyString;
     py_int := int_ascii;
     py_float := λ s, of_Z <$> int_ascii s |}.

(** The fields of a line decode to the entry [e]. *)
Definition decodes (B : Builtins) (line : string) (e : WeatherDataEntry) : Prop :=
  ∃ f t s, str_split B line = [f; t; s] ∧
    py_int B f = Some (year e) ∧
    py_float B t = Some (temperature e) ∧
    py_float B s = Some (temperature_smoothed e).

(** A line with three fields whose second or third field is not a
    number. *)
Definition bad_number (B : Builtins) (line : string) : Prop :=
  ∃ f t s, str_split B line = [f; t; s] ∧
    (py_float B t = None ∨ py_float B s = None).

(** * Properties *)

(** ** Window arithmetic *)

Ltac window_cases :=
  unfold window_bounds, spec_window, clip;
  repeat match goal with
  | |- context [?a <? ?b] => destruct (Z.ltb_spec a b)
  | |- context [?a >? ?b] => rewrite (Z.gtb_ltb a b); destruct (Z.ltb_spec b a)
  end; cbn beta iota zeta.

Lemma window_bounds_range n h i :
  0 ≤ h → 0 ≤ i < n →
  0 ≤ (window_bounds n h i).1 ∧
  (window_bounds n h i).1 ≤ i < (window_bounds n h i).2 ∧
  (window_bounds n h i).2 ≤ n.
Proof. intros Hh Hi. window_cases; simpl; lia. Qed.

Lemma window_bounds_width n h i :
  0 ≤ h → 0 ≤ i < n → 2 * h < n →
  (window_bounds n h i).2 - (window_bounds n h i).1 = 2 * h + 1.
Proof. intros Hh Hi Hn. window_cases; simpl; lia. Qed.

Lemma window_bounds_full n h i :
  0 ≤ h → 0 ≤ i < n → n ≤ 2 * h + 1 → window_bounds n h i = (0, n).
Proof. intros Hh Hi Hn. window_cases; f_equal; lia. Qed.

Lemma window_bounds_interior n h i :
  0 ≤ h → h ≤ i → i + h < n → window_bounds n h i = (i - h, i + h + 1).
Proof. intros Hh Hi Hn. window_cases; f_equal; lia. Qed.

Lemma length_np_arange s e : length (np_arange s e) = Z.to_nat (e - s).
Proof. unfold np_arange. apply length_seqZ. Qed.

(** ** Indexing and searching in index ranges *)

Lemma item_nonneg {A} (a : list A) k :
  0 ≤ k → item a k = of_option IndexError (a !! Z.to_nat k).
Proof.
  intros Hk. unfold item.
  destruct (Z.ltb_spec k 0); [lia|].
  destruct (Z.ltb_spec k 0); [lia|done].
Qed.

Lemma take_idx_fmap {A} (f : Z → A) (a : list A) (window : list Z) :
  (∀ k, k ∈ window → 0 ≤ k ∧ a !! Z.to_nat k = Some (f k)) →
  take_idx a window = Ok (f <$> window).
Proof.
  induction window as [|k ks IH]; intros Hin; [done|].
  destruct (Hin k) as [Hk Hlk]; [left|].
  simpl. rewrite item_nonneg, Hlk by done. simpl.
  rewrite IH; [done|]. intros k' Hk'. apply Hin. by right.
Qed.

Lemma take_idx_arange n s e :
  0 ≤ s → e ≤ n → take_idx (np_arange 0 n) (np_arange s e) = Ok (np_arange s e).
Proof.
  intros Hs He. rewrite (take_idx_fmap id).
  - by rewrite list_fmap_id.
  - unfold np_arange. intros k [Hk1 Hk2]%elem_of_seqZ. split; [lia|].
    rewrite lookup_seqZ_lt by lia. simpl. f_equal. lia.
Qed.

Lemma offsets_arange s e i : offsets (np_arange s e) i = seqZ (s - i) (e - s).
Proof.
  unfold offsets, np_arange. replace (s - i) with (- i + s) by lia.
  rewrite <- fmap_add_seqZ. apply list_fmap_ext. intros _ x _. lia.
Qed.

Lemma np_where_none xs i pos : i ∉ xs → np_where xs i pos = [].
Proof.
  revert pos. induction xs as [|x xs IH]; intros pos Hni; [done|].
  simpl. apply not_elem_of_cons in Hni as [Hne Hni].
  destruct (decide (x = i)); [done|]. by apply IH.
Qed.

Lemma np_where_seqZ s len i pos :
  s ≤ i < s + len →
  np_where (seqZ s len) i pos = [(pos + Z.to_nat (i - s))%nat].
Proof.
  intros Hi. remember (Z.to_nat (i - s)) as d eqn:Hd.
  revert s len pos Hi Hd. induction d as [|d IH]; intros s len pos Hi Hd.
  - assert (i = s) as -> by lia. rewrite seqZ_cons by lia. simpl.
    rewrite decide_True by done. rewrite np_where_none.
    + f_equal. lia.
    + rewrite elem_of_seqZ. lia.
  - rewrite seqZ_cons by lia. simpl.
    rewrite decide_False by lia.
    rewrite (IH (Z.succ s) (Z.pred len) (S pos)) by lia. f_equal. lia.
Qed.

Lemma np_where_arange s e i :
  s ≤ i < e → np_where (np_arange s e) i 0 = [Z.to_nat (i - s)].
Proof. intros Hi. unfold np_arange. by rewrite np_where_seqZ by lia. Qed.

Lemma foldl_max_bounds l z :
  (foldl Z.max z l = z ∨ foldl Z.max z l ∈ l) ∧
  z ≤ foldl Z.max z l ∧ ∀ y, y ∈ l → y ≤ foldl Z.max z l.
Proof.
  revert z. induction l as [|x l IH]; intros z; simpl.
  - split; [by left|]. split; [lia|]. intros y Hy. by apply elem_of_nil in Hy.
  - destruct (IH (Z.max z x)) as (Hmem & Hlo & Hall).
    split; [|split].
    + destruct Hmem as [Heq|Hin].
      * destruct (Z.max_spec z x) as [[_ Hm]|[_ Hm]]; rewrite Heq, Hm.
        -- right. by left.
        -- by left.
      * right. by right.
    + lia.
    + intros y [->|Hy]%elem_of_cons; [lia|by apply Hall].
Qed.

(** [max] of a non-empty sequence is its greatest element. *)
Lemma py_max_spec l m :
  py_max l = Ok m ↔ m ∈ l ∧ ∀ y, y ∈ l → y ≤ m.
Proof.
  destruct l as [|z l]; simpl.
  - split; [done|]. intros [H _]. by apply elem_of_nil in H.
  - destruct (foldl_max_bounds l z) as (Hmem & Hlo & Hall). split.
    + intros [= <-]. split.
      * destruct Hmem as [->|Hin]; [by left|by right].
      * intros y [->|Hy]%elem_of_cons; [done|by apply Hall].
    + intros [Hin Hub]. f_equal. apply Z.le_antisymm.
      * destruct Hmem as [->|Hin']; apply Hub; [by left|by right].
      * apply elem_of_cons in Hin as [->|Hin]; [done|by apply Hall].
Qed.

Lemma py_max_nonempty l : l ≠ [] → ∃ m, py_max l = Ok m.
Proof. destruct l; [done|]. intros _. by eexists. Qed.

(** ** The regression and one loop iteration, unfolded *)

Lemma regression_unfold x y ws :
  weighted_linear_regression x y ws =
  (λ v, fadd (wlr_intercept x y ws) (fmul (wlr_slope x y ws) v)) <$> x.
Proof. reflexivity. Qed.

Lemma regression_lookup x y ws pos v :
  x !! pos = Some v →
  weighted_linear_regression x y ws !! pos =
  Some (fadd (wlr_intercept x y ws) (fmul (wlr_slope x y ws) v)).
Proof. intros Hx. by rewrite regression_unfold, list_lookup_fmap, Hx. Qed.

Lemma local_x_nonempty n h i : 0 ≤ h → 0 ≤ i < n → local_x n h i ≠ [].
Proof.
  intros Hh Hi Hnil. apply (f_equal length) in Hnil.
  unfold local_x in Hnil. rewrite length_np_arange in Hnil. simpl in Hnil.
  pose proof (window_bounds_range n h i Hh Hi). lia.
Qed.

Lemma weights_local_x n h i :
  0 ≤ h → 0 ≤ i < n →
  ∃ m, py_max (Z.abs <$> offsets (local_x n h i) i) = Ok m ∧
       weights (local_x n h i) i =
       Ok ((λ d, w (fdiv (of_Z d) (of_Z m))) <$> offsets (local_x n h i) i).
Proof.
  intros Hh Hi.
  destruct (py_max_nonempty (Z.abs <$> offsets (local_x n h i) i)) as [m Hm].
  - unfold offsets. intros Hnil%fmap_nil_inv%fmap_nil_inv.
    by apply (local_x_nonempty n h i).
  - exists m. split; [done|]. unfold weights. by rewrite Hm.
Qed.

Lemma local_x_target n h i :
  0 ≤ h → 0 ≤ i < n →
  offsets (local_x n h i) i !! Z.to_nat (i - (window_bounds n h i).1) = Some 0.
Proof.
  intros Hh Hi. unfold local_x. rewrite offsets_arange.
  pose proof (window_bounds_range n h i Hh Hi).
  rewrite lookup_seqZ_lt by lia. f_equal. lia.
Qed.

(** Under [lowess], an iteration indexes the two arrays successfully, finds
    the target at position [i - start] of the window and returns the fitted
    value there. *)
Lemma smooth_at_arange (f : Z → num) data_y h i :
  0 ≤ h → 0 ≤ i < Z.of_nat (length data_y) →
  (∀ k, 0 ≤ k < Z.of_nat (length data_y) → data_y !! Z.to_nat k = Some (f k)) →
  smooth_at (np_arange 0 (Z.of_nat (length data_y))) data_y h i =
  (ws ←! weights (local_x (Z.of_nat (length data_y)) h i) i;
   of_option IndexError
     (weighted_linear_regression
        (of_Z <$> offsets (local_x (Z.of_nat (length data_y)) h i) i)
        (f <$> local_x (Z.of_nat (length data_y)) h i) ws
      !! Z.to_nat (i - (window_bounds (Z.of_nat (length data_y)) h i).1))).
Proof.
  intros Hh Hi Hf. unfold smooth_at, local_x.
  pose proof (window_bounds_range _ h i Hh Hi) as (Hs & Hin & He).
  destruct (window_bounds (Z.of_nat (length data_y)) h i) as [s e].
  simpl in *. rewrite take_idx_arange by lia. simpl.
  rewrite (take_idx_fmap f); last first.
  { unfold np_arange. intros k [Hk1 Hk2]%elem_of_seqZ.
    split; [lia|]. apply Hf. lia. }
  simpl. destruct (weights (np_arange s e) i) as [ws|err]; [|done].
  simpl. by rewrite np_where_arange by lia.
Qed.

Lemma lookup_total_fn (data_y : list num) k :
  0 ≤ k < Z.of_nat (length data_y) →
  data_y !! Z.to_nat k = Some (data_y !!! Z.to_nat k).
Proof. intros Hk. apply list_lookup_lookup_total_lt. lia. Qed.

(** The value an iteration under [lowess] produces: intercept plus slope
    times the target's offset, which is [0]. *)
Lemma smooth_at_value (f : Z → num) data_y h i :
  0 ≤ h → 0 ≤ i < Z.of_nat (length data_y) →
  (∀ k, 0 ≤ k < Z.of_nat (length data_y) → data_y !! Z.to_nat k = Some (f k)) →
  ∃ ws, weights (local_x (Z.of_nat (length data_y)) h i) i = Ok ws ∧
    smooth_at (np_arange 0 (Z.of_nat (length data_y))) data_y h i =
    Ok (let x := of_Z <$> offsets (local_x (Z.of_nat (length data_y)) h i) i in
        let y := f <$> local_x (Z.of_nat (length data_y)) h i in
        fadd (wlr_intercept x y ws) (fmul (wlr_slope x y ws) (of_Z 0))).
Proof.
  intros Hh Hi Hf. rewrite (smooth_at_arange f) by done.
  destruct (weights_local_x _ h i Hh Hi) as (m & _ & ->).
  eexists. split; [done|]. simpl.
  erewrite regression_lookup; [done|].
  by rewrite list_lookup_fmap, local_x_target.
Qed.

Lemma smooth_at_ok data_y h i :
  0 ≤ h → 0 ≤ i < Z.of_nat (length data_y) →
  ∃ v, smooth_at (np_arange 0 (Z.of_nat (length data_y))) data_y h i = Ok v.
Proof.
  intros Hh Hi.
  destruct (smooth_at_value (λ k, data_y !!! Z.to_nat k) data_y h i)
    as (ws & _ & ->); eauto using lookup_total_fn.
Qed.

(** ** The loop *)

Lemma lowess_loop_ok data_x data_y h (g : nat → num) range result :
  (∀ i, i ∈ range → smooth_at data_x data_y h (Z.of_nat i) = Ok (g i)) →
  lowess_loop data_x data_y h range result = Ok (foldl (store g) result range).
Proof.
  revert result. induction range as [|i range IH]; intros result Hg; [done|].
  simpl. rewrite Hg by left. simpl. apply IH. intros j Hj. apply Hg. by right.
Qed.

Lemma length_foldl_store g range result :
  length (foldl (store g) result range) = length result.
Proof.
  revert result. induction range as [|i range IH]; intros result; [done|].
  simpl. rewrite IH. apply length_insert.
Qed.

Lemma lookup_foldl_store_other g range result j :
  j ∉ range → foldl (store g) result range !! j = result !! j.
Proof.
  revert result. induction range as [|i range IH]; intros result Hj; [done|].
  apply not_elem_of_cons in Hj as [Hne Hj]. simpl.
  rewrite IH by done. unfold store. by apply list_lookup_insert_ne.
Qed.

Lemma lookup_foldl_store g range result j :
  j ∈ range → (j < length result)%nat →
  foldl (store g) result range !! j = Some (g j).
Proof.
  revert result. induction range as [|i range IH]; intros result Hj Hlen.
  - by apply elem_of_nil in Hj.
  - simpl. destruct (decide (j ∈ range)) as [Hin|Hnotin].
    + apply IH; [done|]. unfold store. by rewrite length_insert.
    + apply elem_of_cons in Hj as [->|Hj]; [|done].
      rewrite lookup_foldl_store_other by done.
      unfold store. by apply list_lookup_insert_eq.
Qed.

Lemma foldl_store_seq g n :
  foldl (store g) (replicate n (Fin 0%Qc)) (seq 0 n) = g <$> seq 0 n.
Proof.
  apply list_eq. intros j. destruct (decide (j < n)%nat) as [Hj|Hj].
  - rewrite lookup_foldl_store.
    + by rewrite list_lookup_fmap, lookup_seq_lt.
    + apply elem_of_seq. lia.
    + by rewrite length_replicate.
  - rewrite !(proj2 (lookup_ge_None _ _)); [done| |].
    + rewrite length_fmap, length_seq. lia.
    + rewrite length_foldl_store, length_replicate. lia.
Qed.

Lemma my_lowess_ok (g : nat → num) data_x data_y h :
  (∀ i, (i < length data_y)%nat →
        smooth_at data_x data_y h (Z.of_nat i) = Ok (g i)) →
  my_lowess data_x data_y h = Ok (g <$> seq 0 (length data_y)).
Proof.
  intros Hg. unfold my_lowess. rewrite (lowess_loop_ok _ _ _ g).
  - by rewrite foldl_store_seq.
  - intros i Hi%elem_of_seq. apply Hg. lia.
Qed.

Lemma lowess_values data_y h :
  0 ≤ h →
  lowess data_y h =
  Ok (value_at (np_arange 0 (Z.of_nat (length data_y))) data_y h
        <$> seq 0 (length data_y)).
Proof.
  intros Hh. unfold lowess. apply my_lowess_ok. intros i Hi.
  unfold value_at.
  destruct (smooth_at_ok data_y h (Z.of_nat i)) as [v ->]; [lia|lia|done].
Qed.

Lemma den_zero_nan x y ws :
  wlr_den x ws = Fin 0%Qc →
  fadd (wlr_intercept x y ws) (fmul (wlr_slope x y ws) (of_Z 0)) = NaN.
Proof.
  intros Hden. unfold wlr_slope. rewrite Hden.
  assert (fmul (fdiv (wlr_num x y ws) (Fin 0%Qc)) (of_Z 0) = NaN) as ->.
  { destruct (wlr_num x y ws) as [q| | |]; try done.
    unfold fdiv. rewrite decide_True by done. by destruct (q ?= 0)%Qc. }
  by destruct (wlr_intercept _ _ _).
Qed.

(** ** Finite values

    The weights are always finite and non-negative; the total weight and
    the slope denominator of a window are sums over its offsets. *)

Ltac qc2q :=
  unfold Qcle, Qclt in *;
  unfold Qcminus, Qcplus, Qcmult, Qcopp, Q2Qc in *; simpl in *;
  rewrite ?Qred_correct in *.

Lemma tricube_nonneg (t : Qc) :
  (t ≤ 1)%Qc → (0 ≤ t)%Qc →
  (0 ≤ (1 + - (t * (t * (t * 1)))) * ((1 + - (t * (t * (t * 1)))) *
       ((1 + - (t * (t * (t * 1)))) * 1)))%Qc.
Proof.
  intros H1 H0.
  assert (0 ≤ 1 + - (t * (t * (t * 1))))%Qc as Hs by (qc2q; nra).
  revert Hs. generalize (1 + - (t * (t * (t * 1))))%Qc. intros s Hs.
  qc2q; nra.
Qed.

Lemma Qc_abs_nonneg (a : Qc) :
  (0 ≤ (if decide (a < 0)%Qc then (- a)%Qc else a))%Qc.
Proof. destruct (decide (a < 0)%Qc) as [H|H]; qc2q; lra. Qed.

Lemma w_fin u : ∃ q, w u = Fin q ∧ (0 ≤ q)%Qc.
Proof.
  unfold w. destruct u as [a| | |]; simpl; try by (eexists; split).
  case_bool_decide as Hle; [|by eexists; split].
  eexists. split; [done|].
  apply tricube_nonneg; [done|apply Qc_abs_nonneg].
Qed.

Lemma w_wq u : w u = Fin (wq u).
Proof. unfold wq. by destruct (w_fin u) as (q & -> & _). Qed.

Lemma wq_nonneg u : (0 ≤ wq u)%Qc.
Proof. unfold wq. by destruct (w_fin u) as (q & -> & ?). Qed.

Lemma sumZ_nil (F : Z → Qc) : sumZ F [] = 0%Qc.
Proof. reflexivity. Qed.

Lemma sumZ_cons (F : Z → Qc) d D : sumZ F (d :: D) = (F d + sumZ F D)%Qc.
Proof. reflexivity. Qed.

Lemma np_sum_fin (F : Z → Qc) D :
  np_sum ((λ d, Fin (F d)) <$> D) = Fin (sumZ F D).
Proof.
  induction D as [|d D IH]; [done|].
  rewrite fmap_cons, sumZ_cons. cbn [np_sum]. by rewrite IH.
Qed.

Lemma vmul_fmap (F G : Z → num) (D : list Z) :
  vmul (F <$> D) (G <$> D) = (λ d, fmul (F d) (G d)) <$> D.
Proof. unfold vmul. induction D as [|d D IH]; [done|]. simpl. by f_equal. Qed.

Lemma sumZ_ext (F G : Z → Qc) D :
  (∀ d, d ∈ D → F d = G d) → sumZ F D = sumZ G D.
Proof.
  induction D as [|d D IH]; intros Hext; [done|].
  rewrite !sumZ_cons, Hext by left. f_equal. apply IH. intros d' Hd'.
  apply Hext. by right.
Qed.

Lemma sumZ_linear (a b : Qc) (F G : Z → Qc) D :
  sumZ (λ d, a * F d + b * G d)%Qc D = (a * sumZ F D + b * sumZ G D)%Qc.
Proof.
  induction D as [|d D IH]; [rewrite !sumZ_nil; ring|].
  rewrite !sumZ_cons, IH. ring.
Qed.

Lemma sumZ_nonneg (F : Z → Qc) D :
  (∀ d, 0 ≤ F d)%Qc → (0 ≤ sumZ F D)%Qc.
Proof.
  intros HF. induction D as [|d D IH]; [done|].
  rewrite sumZ_cons. by apply Qcplus_nonneg_nonneg.
Qed.

Lemma sumZ_zero (F : Z → Qc) D :
  (∀ d, 0 ≤ F d)%Qc → sumZ F D = 0%Qc → ∀ d, d ∈ D → F d = 0%Qc.
Proof.
  intros HF. induction D as [|d D IH]; intros Hsum d' Hd'.
  - by apply elem_of_nil in Hd'.
  - pose proof (HF d) as Hd. pose proof (sumZ_nonneg F D HF) as Hrest.
    rewrite sumZ_cons in Hsum.
    assert (F d = 0%Qc ∧ sumZ F D = 0%Qc) as [Hd0 Hrest0].
    { split; apply Qcle_antisym; try done; rewrite <- Hsum.
      - rewrite <- (Qcplus_0_r (F d)) at 1. by apply Qcplus_le_mono_l.
      - rewrite <- (Qcplus_0_l (sumZ F D)) at 1. by apply Qcplus_le_mono_r. }
    apply elem_of_cons in Hd' as [->|Hd']; [done|]. by apply IH.
Qed.

(** ** Conversions from integers *)


Lemma Qc_of_Z_opp a : Qc_of_Z (- a) = (- Qc_of_Z a)%Qc.
Proof.
  apply Qc_is_canon. simpl. rewrite Qred_correct, inject_Z_opp. reflexivity.
Qed.


Lemma Qc_of_Z_compare z : (Qc_of_Z z ?= 0)%Qc = (z ?= 0)%Z.
Proof. unfold Qccompare, Qcompare. simpl. by rewrite Z.mul_1_r. Qed.


Lemma of_Z_finl D : of_Z <$> D = finl Qc_of_Z D.
Proof. reflexivity. Qed.

Lemma np_sum_finl F D : np_sum (finl F D) = Fin (sumZ F D).
Proof. apply np_sum_fin. Qed.

Lemma vmul_finl F G D :
  vmul (finl F D) (finl G D) = finl (λ d, F d * G d)%Qc D.
Proof. unfold finl. by rewrite vmul_fmap. Qed.

Lemma fmap_finl (g : num → num) (gq : Qc → Qc) F D :
  (∀ a, g (Fin a) = Fin (gq a)) → g <$> finl F D = finl (λ d, gq (F d)) D.
Proof.
  intros Hg. unfold finl. rewrite <- list_fmap_compose.
  apply list_fmap_ext. intros _ d _. apply Hg.
Qed.

Lemma fne_fin_0 a : fne (Fin a) (Fin 0%Qc) = negb (bool_decide (a = 0%Qc)).
Proof.
  unfold fne. f_equal. apply bool_decide_ext. split; [by intros [= ->]|by intros ->].
Qed.

Lemma fdiv_fin a b : b ≠ 0%Qc → fdiv (Fin a) (Fin b) = Fin (a / b)%Qc.
Proof. intros Hb. unfold fdiv. by rewrite decide_False. Qed.

Section finite_window.
Context (D : list Z) (wt : Z → Qc).
Hypothesis wt_nonneg : ∀ d, (0 ≤ wt d)%Qc.

Lemma wlr_mean_fin F :
  (if fne (np_sum (finl wt D)) (Fin 0%Qc)
   then fdiv (np_sum (vmul (finl F D) (finl wt D))) (np_sum (finl wt D))
   else Fin 0%Qc) = Fin (q_mean D wt F).
Proof.
  rewrite vmul_finl, !np_sum_finl, fne_fin_0. unfold q_mean.
  destruct (decide (sumZ wt D = 0%Qc)) as [Hz|Hnz].
  - by rewrite bool_decide_eq_true_2.
  - rewrite bool_decide_eq_false_2 by done. simpl. by apply fdiv_fin.
Qed.

Lemma wlr_x_mean_fin :
  wlr_x_mean (of_Z <$> D) (finl wt D) = Fin (q_mean D wt Qc_of_Z).
Proof. apply wlr_mean_fin. Qed.

Lemma wlr_den_fin : wlr_den (of_Z <$> D) (finl wt D) = Fin (q_den D wt).
Proof.
  unfold wlr_den. rewrite wlr_x_mean_fin, of_Z_finl.
  rewrite (fmap_finl _ (λ a, a + - q_mean D wt Qc_of_Z)%Qc) by done.
  rewrite (fmap_finl _ (λ a, a * (a * 1))%Qc) by done.
  by rewrite vmul_finl, np_sum_finl.
Qed.

(** A window whose weights sum to zero has zero spread as well. *)
Lemma zero_weight_zero_den : sumZ wt D = 0%Qc → q_den D wt = 0%Qc.
Proof.
  intros Hz. unfold q_den.
  rewrite (sumZ_ext _ (λ d, 0 * wt d + 0 * wt d)%Qc).
  - rewrite sumZ_linear. ring.
  - intros d Hd. rewrite (sumZ_zero wt D wt_nonneg Hz d Hd). ring.
Qed.

End finite_window.

(** ** The weight is an even function of the offset *)

Lemma w_fabs x x' : fabs x = fabs x' → w x = w x'.
Proof. unfold w. by intros ->. Qed.

Lemma Qc_abs_opp (a : Qc) :
  (if decide (- a < 0)%Qc then (- - a)%Qc else (- a)%Qc) =
  (if decide (a < 0)%Qc then (- a)%Qc else a).
Proof.
  destruct (decide (- a < 0)%Qc) as [H1|H1], (decide (a < 0)%Qc) as [H2|H2];
    try done; apply Qc_is_canon; qc2q; lra.
Qed.

Lemma fabs_fdiv_opp k m :
  fabs (fdiv (of_Z (- k)) (of_Z m)) = fabs (fdiv (of_Z k) (of_Z m)).
Proof.
  unfold of_Z, fdiv. destruct (decide (Qc_of_Z m = 0%Qc)) as [Hm|Hm].
  - rewrite !Qc_of_Z_compare. by destruct k.
  - rewrite Qc_of_Z_opp.
    replace (- Qc_of_Z k / Qc_of_Z m)%Qc with (- (Qc_of_Z k / Qc_of_Z m))%Qc
      by (by field).
    simpl. f_equal. apply Qc_abs_opp.
Qed.

Lemma w_even k m : w (fdiv (of_Z (- k)) (of_Z m)) = w (fdiv (of_Z k) (of_Z m)).
Proof. apply w_fabs, fabs_fdiv_opp. Qed.

(** ** Interior windows *)

Lemma offsets_interior n h i :
  0 ≤ h → h ≤ i → i + h < n →
  offsets (local_x n h i) i = seqZ (- h) (2 * h + 1).
Proof.
  intros Hh Hi Hn. unfold local_x.
  rewrite window_bounds_interior by done. simpl.
  rewrite offsets_arange. f_equal; lia.
Qed.

Lemma py_max_interior h :
  0 ≤ h → py_max (Z.abs <$> seqZ (- h) (2 * h + 1)) = Ok h.
Proof.
  intros Hh. apply py_max_spec. split.
  - apply list_elem_of_fmap. exists h. split; [lia|].
    apply elem_of_seqZ. lia.
  - intros y (d & -> & Hd%elem_of_seqZ)%list_elem_of_fmap. lia.
Qed.

Lemma weights_interior n h i :
  0 ≤ h → h ≤ i → i + h < n →
  weights (local_x n h i) i =
  Ok ((λ d, w (fdiv (of_Z d) (of_Z h))) <$> seqZ (- h) (2 * h + 1)).
Proof.
  intros Hh Hi Hn. unfold weights.
  rewrite offsets_interior by done. by rewrite py_max_interior.
Qed.

(** ** The loop iteration on finite data *)

Lemma weight_fn_nonneg m d : (0 ≤ weight_fn m d)%Qc.
Proof. apply wq_nonneg. Qed.

Lemma weights_finl x_local i m :
  py_max (Z.abs <$> offsets x_local i) = Ok m →
  weights x_local i = Ok (finl (weight_fn m) (offsets x_local i)).
Proof.
  intros Hm. unfold weights. rewrite Hm. simpl. f_equal.
  unfold finl. apply list_fmap_ext. intros _ d _. apply w_wq.
Qed.

Lemma window_den_finl n h i m :
  py_max (Z.abs <$> offsets (local_x n h i) i) = Ok m →
  window_den n h i =
  Ok (Fin (q_den (offsets (local_x n h i) i) (weight_fn m))).
Proof.
  intros Hm. unfold window_den. rewrite (weights_finl _ _ m) by done.
  simpl. by rewrite wlr_den_fin.
Qed.

(** A degenerate window yields NaN, whatever the data. *)
Lemma smooth_at_degenerate data_y h i :
  0 ≤ h → 0 ≤ i < Z.of_nat (length data_y) →
  window_den (Z.of_nat (length data_y)) h i = Ok (Fin 0%Qc) →
  smooth_at (np_arange 0 (Z.of_nat (length data_y))) data_y h i = Ok NaN.
Proof.
  intros Hh Hi Hden.
  destruct (smooth_at_value (λ k, data_y !!! Z.to_nat k) data_y h i)
    as (ws & Hws & ->); eauto using lookup_total_fn.
  unfold window_den in Hden. rewrite Hws in Hden. simpl in Hden.
  injection Hden as Hden. simpl. by rewrite den_zero_nan.
Qed.

(** ** The weight inside the unit interval *)

Lemma tricube_pos (t : Qc) :
  (0 ≤ t)%Qc → (t < 1)%Qc → w (Fin t) = Fin (wq (Fin t)) ∧ wq (Fin t) ≠ 0%Qc.
Proof.
  intros H0 H1. split; [apply w_wq|].
  unfold wq, w. simpl.
  rewrite decide_False by (by apply Qcle_not_lt).
  rewrite bool_decide_eq_true_2 by (by apply Qclt_le_weak).
  assert (0 < 1 + - (t * (t * (t * 1))))%Qc as Hs by (qc2q; nra).
  revert Hs. generalize (1 + - (t * (t * (t * 1))))%Qc. intros s Hs Hz.
  assert (this (s * (s * (s * 1)))%Qc == 0)%Q as Hz' by (by rewrite Hz).
  clear Hz. qc2q.
  assert (0 < this s * this s)%Q as Hsq by nra. nra.
Qed.

(** ** The entries of the result *)

Lemma lowess_entries data_y h :
  0 ≤ h →
  ∃ r, lowess data_y h = Ok r ∧ length r = length data_y ∧
    ∀ i v, 0 ≤ i < Z.of_nat (length data_y) →
      smooth_at (np_arange 0 (Z.of_nat (length data_y))) data_y h i = Ok v →
      r !! Z.to_nat i = Some v.
Proof.
  intros Hh. eexists. split; [by apply lowess_values|]. split.
  - by rewrite length_fmap, length_seq.
  - intros i v Hi Hv. rewrite list_lookup_fmap, lookup_seq_lt by lia.
    simpl. unfold value_at. rewrite Z2Nat.id by lia. by rewrite Hv.
Qed.

(** Negative half-width: the window of the first target is empty and the
    builtin [max] raises. *)
Lemma smooth_at_negative data_x data_y h :
  data_y ≠ [] → h < 0 → smooth_at data_x data_y h 0 = Raise ValueError.
Proof.
  intros Hne Hh. unfold smooth_at.
  assert (1 ≤ Z.of_nat (length data_y)) as Hn by (destruct data_y; [done|simpl; lia]).
  assert (window_bounds (Z.of_nat (length data_y)) h 0 = (- h, h + 1)) as ->
    by (window_cases; f_equal; lia).
  unfold np_arange. rewrite seqZ_nil by lia. done.
Qed.

Lemma lowess_negative data_y h :
  data_y ≠ [] → h < 0 → lowess data_y h = Raise ValueError.
Proof.
  intros Hne Hh. unfold lowess, my_lowess.
  destruct data_y as [|y data_y]; [done|].
  cbn [length seq lowess_loop]. change (Z.of_nat 0) with 0.
  by rewrite smooth_at_negative.
Qed.

(** ** Two degenerate shapes: a single sample, and half-width one *)

Lemma weights_single : weights [0] 0 = Ok [Fin 0%Qc].
Proof. by apply (bool_decide_unpack _); vm_compute. Qed.

Lemma den_single : wlr_den (of_Z <$> [0]) [Fin 0%Qc] = Fin 0%Qc.
Proof. by apply (bool_decide_unpack _); vm_compute. Qed.

Lemma local_x_single h : 0 ≤ h → local_x 1 h 0 = [0].
Proof.
  intros Hh. unfold local_x. by rewrite window_bounds_full by lia.
Qed.

Lemma weights_three :
  (λ d, w (fdiv (of_Z d) (of_Z 1))) <$> seqZ (Z.opp 1) (2 * 1 + 1) =
  [Fin 0%Qc; Fin 1%Qc; Fin 0%Qc].
Proof. by apply (bool_decide_unpack _); vm_compute. Qed.

Lemma den_three :
  wlr_den (of_Z <$> seqZ (Z.opp 1) (2 * 1 + 1)) [Fin 0%Qc; Fin 1%Qc; Fin 0%Qc] =
  Fin 0%Qc.
Proof. by apply (bool_decide_unpack _); vm_compute. Qed.

(** * The claims *)

(** C1.  For every non-empty input of length [n] and every half-width
    [h >= 0], the smoother returns a sequence of exactly [n] values, and
    its entry at index [i] is the value computed for target index [i]:
    one value per input index, in input order. *)
Theorem lowess_length_and_order data_y h :
  data_y ≠ [] → 0 ≤ h →
  ∃ r, my_lowess (np_arange 0 (Z.of_nat (length data_y))) data_y h = Ok r ∧
    length r = length data_y ∧
    ∀ i, (i < length data_y)%nat →
      ∃ v, smooth_at (np_arange 0 (Z.of_nat (length data_y))) data_y h
             (Z.of_nat i) = Ok v ∧
           r !! i = Some v.
Proof.
  intros _ Hh. destruct (lowess_entries data_y h Hh) as (r & Hr & Hlen & Hent).
  exists r. split; [done|]. split; [done|]. intros i Hi.
  destruct (smooth_at_ok data_y h (Z.of_nat i)) as [v Hv]; [lia|lia|].
  exists v. split; [done|]. rewrite <- (Nat2Z.id i). apply Hent; [lia|done].
Qed.

Lemma lowess_length_and_order_witness :
  ∃ r, my_lowess (np_arange 0 2) [Fin 1%Qc; Fin 2%Qc] 1 = Ok r ∧
    length r = 2%nat ∧
    ∀ i, (i < 2)%nat →
      ∃ v, smooth_at (np_arange 0 2) [Fin 1%Qc; Fin 2%Qc] 1 (Z.of_nat i) = Ok v ∧
           r !! i = Some v.
Proof.
  apply (lowess_length_and_order [Fin 1%Qc; Fin 2%Qc] 1); [done|lia].
Defined.

(** C2.  The window of the code is the window of the specification
    (symmetric window, shifted right by a negative lower bound's deficit,
    shifted left by an upper bound's overflow, then clipped to [[0, n]]).
    When [n > 2h] it holds exactly [2h+1] samples, and it is the whole
    sequence exactly when [n <= 2h+1]. *)
Theorem window_shift_and_clip n h i :
  1 ≤ n → 0 ≤ h → 0 ≤ i < n →
  window_bounds n h i = spec_window n h i ∧
  (2 * h < n → length (local_x n h i) = Z.to_nat (2 * h + 1)) ∧
  (n ≤ 2 * h + 1 → window_bounds n h i = (0, n)) ∧
  (window_bounds n h i = (0, n) → n ≤ 2 * h + 1).
Proof.
  intros Hn Hh Hi. split; [|split; [|split]].
  - window_cases; f_equal; lia.
  - intros Hlt. unfold local_x. rewrite length_np_arange.
    by rewrite window_bounds_width.
  - by apply window_bounds_full.
  - intros Hfull. destruct (decide (n ≤ 2 * h + 1)) as [|Hgt]; [done|].
    pose proof (window_bounds_width n h i Hh Hi) as Hw.
    rewrite Hfull in Hw. simpl in Hw. lia.
Qed.

Lemma window_shift_and_clip_witness :
  window_bounds 11 2 0 = spec_window 11 2 0 ∧
  (2 * 2 < 11 → length (local_x 11 2 0) = Z.to_nat (2 * 2 + 1)) ∧
  (11 ≤ 2 * 2 + 1 → window_bounds 11 2 0 = (0, 11)) ∧
  (window_bounds 11 2 0 = (0, 11) → 11 ≤ 2 * 2 + 1).
Proof. apply (window_shift_and_clip 11 2 0); lia. Defined.

(** C10.  For [n >= 1], [0 <= i < n] and [h >= 0] the window satisfies
    [start <= i < end]; the positions selected by the window are those of
    [np.arange(start, end)], the search for [i] among them has the single
    match [i - start], and the iteration returns a value. *)
Theorem target_in_window n h i :
  1 ≤ n → 0 ≤ h → 0 ≤ i < n →
  (window_bounds n h i).1 ≤ i < (window_bounds n h i).2 ∧
  take_idx (np_arange 0 n) (local_x n h i) = Ok (local_x n h i) ∧
  np_where (local_x n h i) i 0 = [Z.to_nat (i - (window_bounds n h i).1)] ∧
  ∀ data_y, Z.of_nat (length data_y) = n →
    ∃ v, smooth_at (np_arange 0 n) data_y h i = Ok v.
Proof.
  intros Hn Hh Hi.
  pose proof (window_bounds_range n h i Hh Hi) as (Hs & Hin & He).
  split; [done|]. split; [|split].
  - unfold local_x. by apply take_idx_arange.
  - unfold local_x. by apply np_where_arange.
  - intros data_y <-. by apply smooth_at_ok.
Qed.

Lemma target_in_window_witness :
  (window_bounds 5 2 4).1 ≤ 4 < (window_bounds 5 2 4).2 ∧
  take_idx (np_arange 0 5) (local_x 5 2 4) = Ok (local_x 5 2 4) ∧
  np_where (local_x 5 2 4) 4 0 = [Z.to_nat (4 - (window_bounds 5 2 4).1)] ∧
  ∀ data_y, Z.of_nat (length data_y) = 5 →
    ∃ v, smooth_at (np_arange 0 5) data_y 2 4 = Ok v.
Proof. apply (target_in_window 5 2 4); lia. Defined.

(** C6.  For a fully interior window ([h <= i <= n-1-h]) the offsets are
    [-h .. h], the target sits at position [h] of the weight array, and
    the weights at offsets [-k] and [+k] are equal for every [k] in
    [[0, h]]. *)
Theorem interior_weights_symmetric n h i k :
  0 ≤ h → h ≤ i ≤ n - 1 - h → 0 ≤ k ≤ h →
  offsets (local_x n h i) i = seqZ (- h) (2 * h + 1) ∧
  ∃ ws v, weights (local_x n h i) i = Ok ws ∧
    ws !! Z.to_nat (h - k) = Some v ∧ ws !! Z.to_nat (h + k) = Some v.
Proof.
  intros Hh Hi Hk. split; [apply offsets_interior; lia|].
  eexists _, (w (fdiv (of_Z k) (of_Z h))).
  split; [apply weights_interior; lia|].
  rewrite !list_lookup_fmap, !lookup_seqZ_lt by lia.
  replace (- h + Z.of_nat (Z.to_nat (h - k))) with (- k) by lia.
  replace (- h + Z.of_nat (Z.to_nat (h + k))) with k by lia.
  split; [|done]. cbn [fmap option_fmap option_map]. by rewrite w_even.
Qed.

Lemma interior_weights_symmetric_witness :
  offsets (local_x 11 2 5) 5 = seqZ (- 2) (2 * 2 + 1) ∧
  ∃ ws v, weights (local_x 11 2 5) 5 = Ok ws ∧
    ws !! Z.to_nat (2 - 1) = Some v ∧ ws !! Z.to_nat (2 + 1) = Some v.
Proof. apply (interior_weights_symmetric 11 2 5 1); lia. Defined.

Lemma degenerate_den n h i ws :
  0 ≤ h → 0 ≤ i < n →
  weights (local_x n h i) i = Ok ws →
  np_sum ws = Fin 0%Qc ∨
    wlr_den (of_Z <$> offsets (local_x n h i) i) ws = Fin 0%Qc →
  window_den n h i = Ok (Fin 0%Qc).
Proof.
  intros Hh Hi Hws Hdeg.
  destruct (weights_local_x n h i Hh Hi) as (m & Hm & _).
  rewrite (window_den_finl _ _ _ m) by done.
  rewrite (weights_finl _ _ m) in Hws by done. injection Hws as <-.
  do 2 f_equal. destruct Hdeg as [Hsum|Hden].
  - rewrite np_sum_finl in Hsum. injection Hsum as Hsum.
    by apply zero_weight_zero_den; [apply weight_fn_nonneg|].
  - rewrite wlr_den_fin in Hden. by injection Hden.
Qed.

(** C7.  For a non-empty input and [h >= 0] the driver returns a result,
    never an exception; the result is a function of the inputs; and at a
    target whose window has zero total weight or zero spread the result
    holds a non-finite value. *)
Theorem lowess_never_raises data_y h :
  data_y ≠ [] → 0 ≤ h →
  ∃ r, lowess data_y h = Ok r ∧
    (∀ r', lowess data_y h = r' → r' = Ok r) ∧
    ∀ i ws, 0 ≤ i < Z.of_nat (length data_y) →
      weights (local_x (Z.of_nat (length data_y)) h i) i = Ok ws →
      np_sum ws = Fin 0%Qc ∨
        wlr_den (of_Z <$> offsets (local_x (Z.of_nat (length data_y)) h i) i)
          ws = Fin 0%Qc →
      ∃ v, r !! Z.to_nat i = Some v ∧ is_finite v = false.
Proof.
  intros _ Hh. destruct (lowess_entries data_y h Hh) as (r & Hr & _ & Hent).
  exists r. split; [done|]. split; [by intros r' <-|].
  intros i ws Hi Hws Hdeg. exists NaN. split; [|done].
  apply Hent; [done|]. apply smooth_at_degenerate; [done..|].
  by apply (degenerate_den _ _ _ ws).
Qed.

Lemma lowess_never_raises_witness :
  ∃ r, lowess [of_Z 1; of_Z 2; of_Z 4] 1 = Ok r ∧
    (∀ r', lowess [of_Z 1; of_Z 2; of_Z 4] 1 = r' → r' = Ok r) ∧
    ∀ i ws, 0 ≤ i < 3 →
      weights (local_x 3 1 i) i = Ok ws →
      np_sum ws = Fin 0%Qc ∨
        wlr_den (of_Z <$> offsets (local_x 3 1 i) i) ws = Fin 0%Qc →
      ∃ v, r !! Z.to_nat i = Some v ∧ is_finite v = false.
Proof.
  apply (lowess_never_raises [of_Z 1; of_Z 2; of_Z 4] 1); [done|lia].
Defined.

(** C8, as the code has it.  An empty input is not rejected: the driver
    returns the empty sequence, whatever the half-width.  A negative
    half-width on a non-empty input raises [ValueError]. *)
Theorem lowess_precondition_violations data_y h :
  (data_y = [] → lowess data_y h = Ok []) ∧
  (data_y ≠ [] → h < 0 → lowess data_y h = Raise ValueError).
Proof.
  split.
  - by intros ->.
  - apply lowess_negative.
Qed.

Lemma lowess_precondition_violations_witness :
  lowess [] 5 = Ok [] ∧ lowess [of_Z 1; of_Z 2] (- 1) = Raise ValueError.
Proof.
  split.
  - apply (proj1 (lowess_precondition_violations [] 5)). reflexivity.
  - apply (proj2 (lowess_precondition_violations [of_Z 1; of_Z 2] (- 1))).
    + discriminate.
    + lia.
Defined.

(** C8 as stated fails: on the empty input the driver returns a result. *)
Lemma empty_input_not_rejected :
  ¬ (∀ data_y h, data_y = [] ∨ h < 0 → ∃ e, lowess data_y h = Raise e).
Proof.
  intros H. destruct (H [] 5) as [e He]; [by left|]. discriminate He.
Qed.

Lemma half_width_one_den n i :
  1 ≤ i ≤ n - 2 → window_den n 1 i = Ok (Fin 0%Qc).
Proof.
  intros Hi. unfold window_den. rewrite weights_interior by lia.
  rewrite offsets_interior by lia. rewrite weights_three.
  cbn [bind]. by rewrite den_three.
Qed.

Lemma half_width_one_interior_aux data_y i :
  3 ≤ Z.of_nat (length data_y) → 1 ≤ i ≤ Z.of_nat (length data_y) - 2 →
  ∃ r, lowess data_y 1 = Ok r ∧ r !! Z.to_nat i = Some NaN.
Proof.
  intros Hn Hi.
  destruct (lowess_entries data_y 1) as (r & Hr & _ & Hent); [lia|].
  exists r. split; [done|]. apply Hent; [lia|].
  apply smooth_at_degenerate; [lia|lia|by apply half_width_one_den].
Qed.

(** C9.  For half-width [1] and an interior target [1 <= i <= n-2], the
    normalised offsets are [-1, 0, 1], the weights are [0, 1, 0], the slope
    denominator is [0], and the output at [i] is NaN. *)
Theorem half_width_one_interior data_y i :
  3 ≤ Z.of_nat (length data_y) → 1 ≤ i ≤ Z.of_nat (length data_y) - 2 →
  py_max (Z.abs <$> offsets (local_x (Z.of_nat (length data_y)) 1 i) i) = Ok 1 ∧
  (λ d, fdiv (of_Z d) (of_Z 1)) <$>
    offsets (local_x (Z.of_nat (length data_y)) 1 i) i =
    [of_Z (- 1); of_Z 0; of_Z 1] ∧
  weights (local_x (Z.of_nat (length data_y)) 1 i) i =
    Ok [Fin 0%Qc; Fin 1%Qc; Fin 0%Qc] ∧
  window_den (Z.of_nat (length data_y)) 1 i = Ok (Fin 0%Qc) ∧
  ∃ r, lowess data_y 1 = Ok r ∧ r !! Z.to_nat i = Some NaN.
Proof.
  intros Hn Hi. split; [|split; [|split; [|split]]].
  - rewrite offsets_interior by lia. by apply py_max_interior.
  - rewrite offsets_interior by lia.
    by apply (bool_decide_unpack _); vm_compute.
  - rewrite weights_interior by lia. by rewrite weights_three.
  - by apply half_width_one_den.
  - by apply half_width_one_interior_aux.
Qed.

Lemma half_width_one_interior_witness :
  ∃ r, lowess [of_Z 0; of_Z 1; of_Z 4; of_Z 9] 1 = Ok r ∧
       r !! Z.to_nat 2 = Some NaN.
Proof.
  apply (half_width_one_interior [of_Z 0; of_Z 1; of_Z 4; of_Z 9] 2);
    simpl; lia.
Defined.

Lemma window_den_single h : 0 ≤ h → window_den 1 h 0 = Ok (Fin 0%Qc).
Proof.
  intros Hh. unfold window_den. rewrite local_x_single by done.
  rewrite weights_single. cbn [bind]. by rewrite <- den_single.
Qed.

Lemma lowess_single (y : num) h : 0 ≤ h → lowess [y] h = Ok [NaN].
Proof.
  intros Hh.
  destruct (lowess_entries [y] h Hh) as (r & Hr & Hlen & Hent).
  rewrite Hr. f_equal.
  assert (r !! Z.to_nat 0 = Some NaN) as Hnan.
  { apply Hent; [simpl; lia|].
    apply smooth_at_degenerate; [done|simpl; lia|].
    by apply window_den_single. }
  destruct r as [|v [|]]; try done. simpl in Hnan. by injection Hnan as ->.
Qed.

(** C3, as the code has it.  For a single sample and any [h >= 0] the
    window is that sample, the largest absolute offset is [0], the
    normalised coordinate [0 / 0] is NaN, the weight is therefore [0], and
    the output is NaN, whatever the input value. *)
Theorem single_sample_nan (y : num) h :
  0 ≤ h →
  local_x 1 h 0 = [0] ∧
  py_max (Z.abs <$> offsets (local_x 1 h 0) 0) = Ok 0 ∧
  fdiv (of_Z 0) (of_Z 0) = NaN ∧
  weights (local_x 1 h 0) 0 = Ok [Fin 0%Qc] ∧
  lowess [y] h = Ok [NaN].
Proof.
  intros Hh. rewrite local_x_single by done.
  split; [done|]. split; [done|]. split; [done|].
  split; [apply weights_single|]. by apply lowess_single.
Qed.

Lemma single_sample_nan_witness : lowess [of_Z 5] 3 = Ok [NaN].
Proof. apply (single_sample_nan (of_Z 5) 3). lia. Defined.

(** C3 as stated fails: the single input value is not returned. *)
Lemma single_sample_not_returned :
  ¬ (∀ y h, 0 ≤ h → lowess [y] h = Ok [y]).
Proof.
  intros H. specialize (H (of_Z 5) 0 ltac:(lia)).
  rewrite lowess_single in H by lia. discriminate H.
Qed.

(** * Further properties of the smoother *)

(** ** The weight function *)

Lemma tricube_value_facts (t : Qc) :
  (0 ≤ t)%Qc → (t ≤ 1)%Qc →
  ((1 + - (t * (t * (t * 1)))) * ((1 + - (t * (t * (t * 1)))) *
     ((1 + - (t * (t * (t * 1)))) * 1)) ≤ 1 ∧
  (t = 1 →
   (1 + - (t * (t * (t * 1)))) * ((1 + - (t * (t * (t * 1)))) *
     ((1 + - (t * (t * (t * 1)))) * 1)) = 0))%Qc.
Proof.
  intros H0 H1. split.
  - assert (0 ≤ 1 + - (t * (t * (t * 1))))%Qc as Hs0 by (qc2q; nra).
    assert (1 + - (t * (t * (t * 1))) ≤ 1)%Qc as Hs1 by (qc2q; nra).
    revert Hs0 Hs1. generalize (1 + - (t * (t * (t * 1))))%Qc. intros s Hs0 Hs1.
    qc2q. assert (this s * this s <= 1)%Q by nra. nra.
  - intros ->. ring.
Qed.

Lemma fabs_fopp x : fabs (fopp x) = fabs x.
Proof. destruct x as [a| | |]; try done. simpl. f_equal. apply Qc_abs_opp. Qed.

Lemma Qc_abs_lt_1 (a : Qc) :
  ((if decide (a < 0) then - a else a) < 1 ↔ - (1) < a ∧ a < 1)%Qc.
Proof.
  destruct (decide (a < 0)%Qc) as [H|H]; qc2q; split; intros; try split; lra.
Qed.

(** X1.  [w] maps every value, NaN and the infinities included, to a
    finite weight between [0] and [1]; the weight is non-zero exactly on
    the open interval [(-1, 1)]; and [w] is even. *)
Theorem tricube_weight_profile (x : num) :
  (∃ q, w x = Fin q ∧ (0 ≤ q)%Qc ∧ (q ≤ 1)%Qc ∧
        (q ≠ 0%Qc ↔ ∃ t, x = Fin t ∧ (- (1) < t)%Qc ∧ (t < 1)%Qc)) ∧
  w (fopp x) = w x.
Proof.
  split; [|apply w_fabs, fabs_fopp].
  assert (∀ y, (y = PInf ∨ y = NInf ∨ y = NaN) →
    ¬ ∃ t, y = Fin t ∧ (- (1) < t)%Qc ∧ (t < 1)%Qc) as Hspecial.
  { intros y Hy (t & -> & _). by destruct Hy as [?|[?|?]]. }
  destruct x as [a| | |];
    try (exists 0%Qc; split; [done|]; split; [done|]; split; [done|];
         split; [done|]; intros H; exfalso; revert H; apply Hspecial; auto).
  unfold w. simpl.
  pose proof (Qc_abs_nonneg a) as Habs0.
  pose proof (Qc_abs_lt_1 a) as Hlt.
  revert Habs0 Hlt. generalize (if decide (a < 0)%Qc then (- a)%Qc else a).
  intros t Ht0 Hlt. case_bool_decide as Hle.
  - eexists. split; [done|].
    destruct (tricube_value_facts t Ht0 Hle) as [Hq1 Hq0].
    split; [by apply tricube_nonneg|]. split; [done|]. split.
    + intros Hne. exists a. split; [done|]. apply Hlt.
      destruct (Qclt_le_dec t 1) as [|Hge]; [done|].
      exfalso. apply Hne, Hq0. by apply Qcle_antisym.
    + intros (a' & [= <-] & Ha). apply Hlt in Ha.
      destruct (tricube_pos t Ht0 Ha) as [_ Hpos].
      unfold wq, w in Hpos. simpl in Hpos.
      rewrite decide_False in Hpos by (by apply Qcle_not_lt).
      by rewrite bool_decide_eq_true_2 in Hpos.
  - exists 0%Qc. split; [done|]. split; [done|]. split; [done|].
    split; [done|]. intros (a' & [= <-] & Ha). apply Hlt in Ha.
    exfalso. apply Hle. by apply Qclt_le_weak.
Qed.

(** ** The weights of a window *)











(** ** Half-width zero *)

Lemma weights_hw0 :
  (λ d, w (fdiv (of_Z d) (of_Z 0))) <$> seqZ (Z.opp 0) (2 * 0 + 1) =
  [Fin 0%Qc].
Proof. by apply (bool_decide_unpack _); vm_compute. Qed.

Lemma den_hw0 :
  wlr_den (of_Z <$> seqZ (Z.opp 0) (2 * 0 + 1)) [Fin 0%Qc] = Fin 0%Qc.
Proof. by apply (bool_decide_unpack _); vm_compute. Qed.

Lemma window_den_hw0 n i : 0 ≤ i < n → window_den n 0 i = Ok (Fin 0%Qc).
Proof.
  intros Hi. unfold window_den. rewrite weights_interior by lia.
  rewrite offsets_interior by lia. rewrite weights_hw0.
  cbn [bind]. by rewrite den_hw0.
Qed.

(** X3.  With half-width [0] every window is the target alone, and the
    smoother returns NaN at every position, whatever the data. *)
Theorem zero_half_width_all_nan data_y :
  lowess data_y 0 = Ok (replicate (length data_y) NaN).
Proof.
  unfold lowess. rewrite (my_lowess_ok (λ _, NaN)).
  - f_equal. rewrite (const_fmap _ (seq 0 (length data_y)) NaN) by done.
    by rewrite length_seq.
  - intros i Hi. apply smooth_at_degenerate; [lia|lia|].
    apply window_den_hw0. lia.
Qed.

(** ** Locality *)

Lemma take_idx_ext {A} (a a' : list A) (window : list Z) :
  (∀ k, k ∈ window → item a k = item a' k) →
  take_idx a window = take_idx a' window.
Proof.
  induction window as [|k ks IH]; intros Hext; [done|].
  simpl. rewrite Hext by left. rewrite IH; [done|].
  intros k' Hk'. apply Hext. by right.
Qed.

Lemma smooth_at_local data_x data_y data_y' h i :
  length data_y = length data_y' →
  0 ≤ h → 0 ≤ i < Z.of_nat (length data_y) →
  (∀ k, (window_bounds (Z.of_nat (length data_y)) h i).1 ≤ k
          < (window_bounds (Z.of_nat (length data_y)) h i).2 →
        data_y !! Z.to_nat k = data_y' !! Z.to_nat k) →
  smooth_at data_x data_y h i = smooth_at data_x data_y' h i.
Proof.
  intros Hlen Hh Hi Hagree. unfold smooth_at. rewrite <- Hlen.
  pose proof (window_bounds_range _ h i Hh Hi) as (Hs & _ & _).
  destruct (window_bounds (Z.of_nat (length data_y)) h i) as [s e].
  simpl in *.
  rewrite (take_idx_ext data_y data_y' (np_arange s e)); [done|].
  unfold np_arange. intros k [Hk1 Hk2]%elem_of_seqZ.
  rewrite !item_nonneg by lia. rewrite Hagree by lia. done.
Qed.

(** X5.  The smoothed value at [i] depends only on the samples inside the
    window of [i]: two inputs of the same length that agree on that window
    get the same value at [i]. *)
Theorem smoothed_value_is_local data_y data_y' h i :
  length data_y = length data_y' →
  0 ≤ h → 0 ≤ i < Z.of_nat (length data_y) →
  (∀ k, (window_bounds (Z.of_nat (length data_y)) h i).1 ≤ k
          < (window_bounds (Z.of_nat (length data_y)) h i).2 →
        data_y !! Z.to_nat k = data_y' !! Z.to_nat k) →
  ∃ r r' v, lowess data_y h = Ok r ∧ lowess data_y' h = Ok r' ∧
            r !! Z.to_nat i = Some v ∧ r' !! Z.to_nat i = Some v.
Proof.
  intros Hlen Hh Hi Hagree.
  destruct (lowess_entries data_y h Hh) as (r & Hr & _ & Hent).
  destruct (lowess_entries data_y' h Hh) as (r' & Hr' & _ & Hent').
  destruct (smooth_at_ok data_y h i Hh Hi) as [v Hv].
  exists r, r', v. split; [done|]. split; [done|]. split; [by apply Hent|].
  apply Hent'; [lia|]. rewrite <- Hlen.
  by rewrite <- (smooth_at_local _ data_y data_y' h i).
Qed.

Lemma smoothed_value_is_local_witness :
  ∃ r r' v,
    lowess [of_Z 1; of_Z 2; of_Z 3; of_Z 4; of_Z 5; of_Z 6] 1 = Ok r ∧
    lowess [of_Z 1; of_Z 2; of_Z 3; of_Z 4; of_Z 5; of_Z 9] 1 = Ok r' ∧
    r !! Z.to_nat 0 = Some v ∧ r' !! Z.to_nat 0 = Some v.
Proof.
  apply (smoothed_value_is_local
           [of_Z 1; of_Z 2; of_Z 3; of_Z 4; of_Z 5; of_Z 6]
           [of_Z 1; of_Z 2; of_Z 3; of_Z 4; of_Z 5; of_Z 9] 1 0).
  - reflexivity.
  - lia.
  - simpl. lia.
  - intros k Hk. change (0 ≤ k < 3) in Hk.
    assert (k = 0 ∨ k = 1 ∨ k = 2) as [->|[->| ->]] by lia; reflexivity.
Defined.

(** ** The positions handed to [my_lowess] *)

Lemma item_outcome {A} (a : list A) k :
  (∃ v, item a k = Ok v ∧ v ∈ a) ∨ item a k = Raise IndexError.
Proof.
  unfold item. destruct (_ <? 0); [by right|].
  destruct (a !! _) as [v|] eqn:Hv; [|by right].
  left. exists v. split; [done|]. by apply list_elem_of_lookup_2 in Hv.
Qed.

Lemma take_idx_outcome {A} (a : list A) (window : list Z) :
  (∃ l, take_idx a window = Ok l ∧ length l = length window ∧
        ∀ v, v ∈ l → v ∈ a) ∨
  take_idx a window = Raise IndexError.
Proof.
  induction window as [|k ks IH]; simpl.
  - left. exists []. split; [done|]. split; [done|].
    intros v Hv. by apply elem_of_nil in Hv.
  - destruct (item_outcome a k) as [(v & -> & Hv)| ->]; [|by right].
    destruct IH as [(l & -> & Hlen & Hin)| ->]; [|by right].
    left. exists (v :: l). split; [done|]. split; [simpl; lia|].
    intros v' [->|Hv']%elem_of_cons; auto.
Qed.

Lemma take_idx_out_of_range {A} (a : list A) (window : list Z) k :
  k ∈ window → Z.of_nat (length a) ≤ k →
  take_idx a window = Raise IndexError.
Proof.
  intros Hk Hge. induction window as [|k' ks IH].
  - by apply elem_of_nil in Hk.
  - simpl. destruct (item_outcome a k') as [(v & Hv & _)| ->]; [|done].
    rewrite Hv. simpl. apply elem_of_cons in Hk as [<-|Hk].
    + rewrite item_nonneg in Hv by lia.
      rewrite (proj2 (lookup_ge_None a (Z.to_nat k))) in Hv by lia. done.
    + by rewrite IH.
Qed.

(** With a non-negative half-width an iteration either returns a value or
    raises [IndexError]. *)
Lemma smooth_at_outcome data_x data_y h i :
  0 ≤ h → 0 ≤ i < Z.of_nat (length data_y) →
  (∃ v, smooth_at data_x data_y h i = Ok v) ∨
  smooth_at data_x data_y h i = Raise IndexError.
Proof.
  intros Hh Hi. unfold smooth_at.
  pose proof (window_bounds_range _ h i Hh Hi) as (Hs & Hin & He).
  destruct (window_bounds (Z.of_nat (length data_y)) h i) as [s e].
  simpl in *.
  destruct (take_idx_outcome data_x (np_arange s e))
    as [(xl & -> & Hlen & _)| ->]; [|by right].
  destruct (take_idx_outcome data_y (np_arange s e))
    as [(yl & -> & _ & _)| ->]; [|by right].
  simpl. unfold weights.
  destruct (py_max_nonempty (Z.abs <$> offsets xl i)) as [m ->].
  { unfold offsets. intros Hnil%fmap_nil_inv%fmap_nil_inv. subst xl.
    rewrite length_np_arange in Hlen. simpl in Hlen. lia. }
  simpl. destruct (head (np_where xl i 0)) as [pos|]; [|by right].
  simpl. destruct (_ !! pos); [left; by eexists|by right].
Qed.

Lemma smooth_at_target_missing data_x data_y h i :
  0 ≤ h → 0 ≤ i < Z.of_nat (length data_y) → i ∉ data_x →
  smooth_at data_x data_y h i = Raise IndexError.
Proof.
  intros Hh Hi Hmiss. unfold smooth_at.
  pose proof (window_bounds_range _ h i Hh Hi) as (Hs & Hin & He).
  destruct (window_bounds (Z.of_nat (length data_y)) h i) as [s e].
  simpl in *.
  destruct (take_idx_outcome data_x (np_arange s e))
    as [(xl & -> & Hlen & Hsub)| ->]; [|done].
  destruct (take_idx_outcome data_y (np_arange s e))
    as [(yl & -> & _ & _)| ->]; [|done].
  simpl. unfold weights.
  destruct (py_max_nonempty (Z.abs <$> offsets xl i)) as [m ->].
  { unfold offsets. intros Hnil%fmap_nil_inv%fmap_nil_inv. subst xl.
    rewrite length_np_arange in Hlen. simpl in Hlen. lia. }
  simpl. rewrite np_where_none; [done|]. intros Hxl. by apply Hmiss, Hsub.
Qed.

Lemma smooth_at_positions_short data_x data_y h :
  0 ≤ h → (length data_x < length data_y)%nat →
  smooth_at data_x data_y h (Z.of_nat (length data_y) - 1) = Raise IndexError.
Proof.
  intros Hh Hlen. unfold smooth_at.
  pose proof (window_bounds_range (Z.of_nat (length data_y)) h
                (Z.of_nat (length data_y) - 1) Hh ltac:(lia))
    as (Hs & Hin & He).
  destruct (window_bounds (Z.of_nat (length data_y)) h _) as [s e].
  simpl in *.
  rewrite (take_idx_out_of_range data_x _ (Z.of_nat (length data_y) - 1));
    [done| |lia].
  unfold np_arange. apply elem_of_seqZ. lia.
Qed.

Lemma lowess_loop_raises data_x data_y h range result i :
  (∀ j, j ∈ range →
        (∃ v, smooth_at data_x data_y h (Z.of_nat j) = Ok v) ∨
        smooth_at data_x data_y h (Z.of_nat j) = Raise IndexError) →
  i ∈ range → smooth_at data_x data_y h (Z.of_nat i) = Raise IndexError →
  lowess_loop data_x data_y h range result = Raise IndexError.
Proof.
  revert result. induction range as [|j range IH]; intros result Hout Hi Hraise.
  - by apply elem_of_nil in Hi.
  - simpl. destruct (Hout j) as [[v Hv]|Hj]; [left| |by rewrite Hj].
    rewrite Hv. simpl. apply elem_of_cons in Hi as [->|Hi]; [congruence|].
    apply IH; [|done..]. intros j' Hj'. apply Hout. by right.
Qed.

(** X8.  [my_lowess] needs its positions to be the sample indices: with a
    non-negative half-width it raises [IndexError] as soon as [data_x] is
    shorter than [data_y] or some index [0 <= i < len(data_y)] does not
    occur in [data_x] (calendar years, for instance). *)
Theorem my_lowess_needs_indices data_x data_y h :
  0 ≤ h →
  (length data_x < length data_y)%nat ∨
    (∃ i, 0 ≤ i < Z.of_nat (length data_y) ∧ i ∉ data_x) →
  my_lowess data_x data_y h = Raise IndexError.
Proof.
  intros Hh Hbad. unfold my_lowess.
  assert (∃ i, (i < length data_y)%nat ∧
               smooth_at data_x data_y h (Z.of_nat i) = Raise IndexError)
    as (i & Hi & Hraise).
  { destruct Hbad as [Hshort|(i & Hi & Hmiss)].
    - exists (length data_y - 1)%nat. split; [lia|].
      replace (Z.of_nat (length data_y - 1)) with (Z.of_nat (length data_y) - 1)
        by lia.
      by apply smooth_at_positions_short.
    - exists (Z.to_nat i). split; [lia|]. rewrite Z2Nat.id by lia.
      by apply smooth_at_target_missing. }
  apply (lowess_loop_raises _ _ _ _ _ i); [|apply elem_of_seq; lia|done].
  intros j Hj%elem_of_seq. apply smooth_at_outcome; lia.
Qed.

Lemma my_lowess_needs_indices_witness :
  my_lowess [1990; 1991; 1992] [of_Z 3; of_Z 1; of_Z 4] 1 = Raise IndexError.
Proof.
  apply (my_lowess_needs_indices [1990; 1991; 1992] [of_Z 3; of_Z 1; of_Z 4] 1).
  - lia.
  - right. exists 0. split; [simpl; lia|].
    intros Hin. apply list_elem_of_In in Hin. simpl in Hin.
    destruct Hin as [H|[H|[H|[]]]]; discriminate H.
Defined.

(** ** The window in closed form *)

(** X9.  The window has the fixed length [min(n, 2h+1)] and starts at
    [i - h] clamped to [[0, n - (2h+1)]]; from one target to the next it
    stays where it is or moves right by one sample. *)
Theorem window_closed_form n h i :
  0 ≤ h → 0 ≤ i < n →
  window_bounds n h i =
    (Z.max 0 (Z.min (i - h) (n - (2 * h + 1))),
     Z.max 0 (Z.min (i - h) (n - (2 * h + 1))) + Z.min n (2 * h + 1)) ∧
  (i + 1 < n →
   window_bounds n h (i + 1) = window_bounds n h i ∨
   window_bounds n h (i + 1) =
     ((window_bounds n h i).1 + 1, (window_bounds n h i).2 + 1)).
Proof.
  intros Hh Hi.
  assert (∀ j, 0 ≤ j < n →
    window_bounds n h j =
      (Z.max 0 (Z.min (j - h) (n - (2 * h + 1))),
       Z.max 0 (Z.min (j - h) (n - (2 * h + 1))) + Z.min n (2 * h + 1)))
    as Hform.
  { intros j Hj. window_cases; f_equal; lia. }
  split; [by apply Hform|]. intros Hnext.
  rewrite (Hform i), (Hform (i + 1)) by lia. simpl.
  destruct (decide (Z.max 0 (Z.min (i + 1 - h) (n - (2 * h + 1))) =
                    Z.max 0 (Z.min (i - h) (n - (2 * h + 1))))) as [Heq|Hne].
  - left. by rewrite Heq.
  - right. f_equal; lia.
Qed.

Lemma window_closed_form_witness :
  window_bounds 11 2 9 =
    (Z.max 0 (Z.min (9 - 2) (11 - (2 * 2 + 1))),
     Z.max 0 (Z.min (9 - 2) (11 - (2 * 2 + 1))) + Z.min 11 (2 * 2 + 1)) ∧
  (9 + 1 < 11 →
   window_bounds 11 2 (9 + 1) = window_bounds 11 2 9 ∨
   window_bounds 11 2 (9 + 1) =
     ((window_bounds 11 2 9).1 + 1, (window_bounds 11 2 9).2 + 1)).
Proof. apply (window_closed_form 11 2 9); lia. Defined.

(** * The application around the smoother *)

(** ** [validate_input] *)

Lemma check_fields_Done B lines :
  check_fields B lines = Done tt ↔
  Forall (λ line, length (str_split B line) = 3%nat) lines.
Proof.
  induction lines as [|line lines IH]; simpl.
  - split; [by constructor|done].
  - destruct (decide (length (str_split B line) = 3%nat)) as [Hlen|Hlen].
    + rewrite IH. split; [by constructor|by inversion 1].
    + split; [done|]. inversion 1; subst. done.
Qed.

Lemma check_fields_outcome B lines :
  check_fields B lines = Done tt ∨
  check_fields B lines = Fail (Exception BadFileFormat).
Proof.
  induction lines as [|line lines IH]; simpl; [by left|].
  destruct (decide _); [done|by right].
Qed.

Lemma years_of_Done B lines ys :
  years_of B lines = Done ys ↔
  Forall2 (λ line y, first_int B line = Done y) lines ys.
Proof.
  revert ys. induction lines as [|line lines IH]; intros ys; simpl.
  - split; [intros [= <-]; constructor|by inversion 1].
  - split.
    + destruct (first_int B line) as [y|e] eqn:Hy; [|done]. simpl.
      destruct (years_of B lines) as [ys'|e] eqn:Hys; [|done]. simpl.
      intros [= <-]. constructor; [done|]. by apply IH.
    + inversion 1 as [|? y ? ys' Hy Hys]; subst.
      rewrite Hy. simpl. apply IH in Hys. by rewrite Hys.
Qed.

Lemma check_consecutive_Done years range :
  (∀ i, i ∈ range → (S i < length years)%nat) →
  check_consecutive years range = Done tt ↔
  ∀ i, i ∈ range →
       ∃ next this, years !! S i = Some next ∧ years !! i = Some this ∧
                    next - this = 1.
Proof.
  induction range as [|i range IH]; intros Hrange; simpl.
  - split; [|done]. intros _ i Hi. by apply elem_of_nil in Hi.
  - destruct (lookup_lt_is_Some_2 years (S i)) as [next Hnext];
      [apply Hrange; left|].
    destruct (lookup_lt_is_Some_2 years i) as [this Hthis].
    { pose proof (Hrange i ltac:(left)). lia. }
    rewrite Hnext, Hthis.
    destruct (decide (next - this = 1)) as [Hstep|Hstep].
    + rewrite IH by (intros j Hj; apply Hrange; by right). split.
      * intros Hrest j [->|Hj]%elem_of_cons; [by exists next, this|auto].
      * intros Hall j Hj. apply Hall. by right.
    + split; [done|]. intros Hall.
      destruct (Hall i ltac:(left)) as (next' & this' & H1 & H2 & H3).
      congruence.
Qed.

(** Successive differences of one characterise the runs [y0, y0+1, ...]. *)
Lemma consecutive_run (years : list Z) :
  (∀ i, (S i < length years)%nat →
        ∃ next this, years !! S i = Some next ∧ years !! i = Some this ∧
                     next - this = 1) ↔
  ∃ y0, years = seqZ y0 (Z.of_nat (length years)).
Proof.
  split.
  - intros Hstep. destruct years as [|y0 years]; [by exists 0|].
    exists y0. apply list_eq. intros i.
    destruct (decide (i < length (y0 :: years))%nat) as [Hi|Hi].
    + rewrite lookup_seqZ_lt by lia. induction i as [|i IH]; [simpl; f_equal; lia|].
      destruct (Hstep i Hi) as (next & this & Hnext & Hthis & Hd).
      rewrite IH in Hthis by lia. rewrite Hnext. f_equal.
      injection Hthis as <-. lia.
    + rewrite lookup_seqZ_ge by lia. apply lookup_ge_None. lia.
  - intros [y0 Hrun] i Hi. exists (y0 + Z.of_nat (S i)), (y0 + Z.of_nat i).
    rewrite Hrun, !lookup_seqZ_lt by lia. split; [done|]. split; [done|]. lia.
Qed.

Lemma validate_input_years B lines :
  validate_input B lines = Done tt ↔
  (5 ≤ length lines)%nat ∧
  Forall (λ line, length (str_split B line) = 3%nat) lines ∧
  ∃ y0, years_of B lines = Done (seqZ y0 (Z.of_nat (length lines))).
Proof.
  unfold validate_input.
  destruct (decide (length lines < 5)%nat) as [Hfew|Hmany].
  { split; [done|]. intros [? _]. lia. }
  rewrite <- check_fields_Done.
  destruct (check_fields_outcome B lines) as [->| ->]; simpl.
  2: { split; [done|]. by intros (_ & ? & _). }
  destruct (years_of B lines) as [years|e] eqn:Hyears; simpl.
  2: { split; [done|]. by intros (_ & _ & ? & ?). }
  assert (length years = length lines) as Hlen.
  { apply years_of_Done in Hyears. symmetry. by eapply Forall2_length. }
  rewrite check_consecutive_Done by (intros i Hi%elem_of_seq; lia).
  assert ((∀ i, i ∈ seq 0 (length years - 1) →
             ∃ next this, years !! S i = Some next ∧ years !! i = Some this ∧
                          next - this = 1) ↔
          ∃ y0, years = seqZ y0 (Z.of_nat (length years))) as ->.
  { rewrite <- consecutive_run. split.
    - intros H i Hi. apply H. apply elem_of_seq. lia.
    - intros H i Hi%elem_of_seq. apply H. lia. }
  rewrite Hlen. split.
  - intros [y0 ->]. split; [lia|]. split; [done|]. by exists y0.
  - intros (_ & _ & y0 & [= ->]). by exists y0.
Qed.

(** X11.  [validate_input] accepts the lines exactly when there are at
    least five of them, each has exactly three fields, and the first
    fields are the integers [y0, y0+1, y0+2, ...] for some first year
    [y0]. *)
Theorem validate_input_accepts B lines :
  validate_input B lines = Done tt ↔
  (5 ≤ length lines)%nat ∧
  ∃ y0, ∀ i line, lines !! i = Some line →
    ∃ f t s, str_split B line = [f; t; s] ∧
             py_int B f = Some (y0 + Z.of_nat i).
Proof.
  rewrite validate_input_years. split.
  - intros (Hlen & Hfields & y0 & Hyears). split; [done|]. exists y0.
    intros i line Hline.
    rewrite Forall_lookup in Hfields. specialize (Hfields i line Hline).
    apply years_of_Done in Hyears.
    destruct (Forall2_lookup_l _ _ _ i line Hyears Hline) as (y & Hy & Hint).
    apply lookup_seqZ in Hy as [-> _]. unfold first_int in Hint.
    destruct (str_split B line) as [|f [|t [|s [|]]]]; try done.
    exists f, t, s. split; [done|].
    destruct (py_int B f); [|done]. by injection Hint as ->.
  - intros (Hlen & y0 & Hlines). split; [done|]. split.
    + apply Forall_lookup. intros i line Hline.
      destruct (Hlines i line Hline) as (f & t & s & -> & _). done.
    + exists y0. apply years_of_Done.
      apply Forall2_same_length_lookup_2.
      * rewrite length_seqZ. lia.
      * intros i line y Hline Hy. apply lookup_seqZ in Hy as [-> _].
        destruct (Hlines i line Hline) as (f & t & s & Hsplit & Hint).
        unfold first_int. by rewrite Hsplit, Hint.
Qed.

(** ** The tick positions of [create_plot] *)

Lemma foldl_min_bounds l z :
  (foldl Z.min z l = z ∨ foldl Z.min z l ∈ l) ∧
  foldl Z.min z l ≤ z ∧ ∀ y, y ∈ l → foldl Z.min z l ≤ y.
Proof.
  revert z. induction l as [|x l IH]; intros z; simpl.
  - split; [by left|]. split; [lia|]. intros y Hy. by apply elem_of_nil in Hy.
  - destruct (IH (Z.min z x)) as (Hmem & Hlo & Hall).
    split; [|split].
    + destruct Hmem as [Heq|Hin].
      * destruct (Z.min_spec z x) as [[_ Hm]|[_ Hm]]; rewrite Heq, Hm.
        -- by left.
        -- right. by left.
      * right. by right.
    + lia.
    + intros y [->|Hy]%elem_of_cons; [lia|by apply Hall].
Qed.

(** [min] of a non-empty sequence is its least element. *)
Lemma py_min_spec l m :
  py_min l = Ok m ↔ m ∈ l ∧ ∀ y, y ∈ l → m ≤ y.
Proof.
  destruct l as [|z l]; simpl.
  - split; [done|]. intros [H _]. by apply elem_of_nil in H.
  - destruct (foldl_min_bounds l z) as (Hmem & Hlo & Hall). split.
    + intros [= <-]. split.
      * destruct Hmem as [->|Hin]; [by left|by right].
      * intros y [->|Hy]%elem_of_cons; [done|by apply Hall].
    + intros [Hin Hlb]. f_equal. apply Z.le_antisymm.
      * apply elem_of_cons in Hin as [->|Hin]; [done|by apply Hall].
      * destruct Hmem as [->|Hin']; apply Hlb; [by left|by right].
Qed.

Lemma tick_step_cases width :
  tick_step width = 5 ∨ tick_step width = 10 ∨ tick_step width = 20.
Proof. unfold tick_step. repeat destruct (_ >? _); auto. Qed.

(** [range] with a positive step: the values [start + k * step] below
    [stop], in increasing order. *)
Lemma py_range_positive start stop step :
  0 < step →
  ∃ l, py_range start stop step = Ok l ∧
    (∀ t, t ∈ l ↔ ∃ k, 0 ≤ k ∧ t = start + k * step ∧ t < stop) ∧
    (∀ j t, l !! j = Some t → t = start + Z.of_nat j * step).
Proof.
  intros Hstep. unfold py_range.
  rewrite decide_False by lia. rewrite decide_True by done.
  eexists. split; [done|].
  pose proof (Z.div_mod (stop - start + step - 1) step ltac:(lia)) as Hdiv.
  pose proof (Z.mod_pos_bound (stop - start + step - 1) step Hstep) as Hmod.
  split.
  - intros t. rewrite list_elem_of_fmap. split.
    + intros (k & -> & Hk%elem_of_seqZ). exists k.
      split; [lia|]. split; [done|]. nia.
    + intros (k & Hk & -> & Hlt). exists k. split; [done|].
      apply elem_of_seqZ. split; [lia|]. nia.
  - intros j t. rewrite list_lookup_fmap. intros Hj.
    apply fmap_Some in Hj as (k & Hk & ->).
    apply lookup_seqZ in Hk as [-> _]. lia.
Qed.

(** X12.  The tick positions are exactly the multiples of the step that
    lie between the first and the last year, in increasing order; the step
    is [5], [10] or [20] according to the width of the range of years.
    Without years, [max] raises [ValueError]. *)
Theorem xticks_are_multiples years :
  (years = [] → xticks years = Raise ValueError) ∧
  (years ≠ [] →
   ∃ lo hi ts, py_min years = Ok lo ∧ py_max years = Ok hi ∧
     xticks years = Ok ts ∧
     (∀ t, t ∈ ts ↔ lo ≤ t ≤ hi ∧ (tick_step (hi - lo) | t)) ∧
     (∀ j k a b, (j < k)%nat → ts !! j = Some a → ts !! k = Some b → a < b)).
Proof.
  split; [by intros ->|]. intros Hne.
  destruct (py_max_nonempty years Hne) as [hi Hhi].
  assert (∃ lo, py_min years = Ok lo) as [lo Hlo]
    by (destruct years; [done|by eexists]).
  exists lo, hi. unfold xticks. rewrite Hhi, Hlo. cbn [bind].
  set (step := tick_step (hi - lo)).
  assert (0 < step) as Hstep
    by (destruct (tick_step_cases (hi - lo)) as [H|[H|H]]; unfold step; lia).
  destruct (py_range_positive (((lo - 1) / step + 1) * step)
              (hi / step * step + 1) step Hstep) as (ts & -> & Hmem & Hidx).
  exists ts. split; [done|]. split; [done|]. split; [done|].
  pose proof (Z.div_mod (lo - 1) step ltac:(lia)) as Hdl.
  pose proof (Z.mod_pos_bound (lo - 1) step Hstep) as Hml.
  pose proof (Z.div_mod hi step ltac:(lia)) as Hdh.
  pose proof (Z.mod_pos_bound hi step Hstep) as Hmh.
  revert Hmem Hidx Hdl Hml Hdh Hmh.
  generalize ((lo - 1) / step) ((lo - 1) `mod` step) (hi / step)
             (hi `mod` step).
  intros ql rl qh rh Hmem Hidx Hdl Hml Hdh Hmh. split.
  - intros t. rewrite Hmem. split.
    + intros (k & Hk & -> & Hlt). split; [nia|].
      exists (ql + 1 + k). lia.
    + intros [[Hlot Hthi] [j ->]].
      assert (ql < j) by nia. assert (j ≤ qh) by nia.
      exists (j - (ql + 1)). split; [lia|]. split; [lia|]. nia.
  - intros j k a b Hjk Ha Hb. apply Hidx in Ha, Hb. nia.
Qed.

Lemma xticks_are_multiples_witness :
  ∃ lo hi ts, py_min [1994; 1990; 1992; 1991; 1993] = Ok lo ∧
    py_max [1994; 1990; 1992; 1991; 1993] = Ok hi ∧
    xticks [1994; 1990; 1992; 1991; 1993] = Ok ts ∧
    (∀ t, t ∈ ts ↔ lo ≤ t ≤ hi ∧ (tick_step (hi - lo) | t)) ∧
    (∀ j k a b, (j < k)%nat → ts !! j = Some a → ts !! k = Some b → a < b).
Proof.
  apply (proj2 (xticks_are_multiples [1994; 1990; 1992; 1991; 1993])).
  discriminate.
Defined.

(** ** The arrays of [create_plot] *)

Lemma np_sub_same_length a b :
  length a = length b → np_sub a b = Ok (zip_with fsub a b).
Proof. intros Hlen. unfold np_sub. by rewrite decide_True. Qed.

Lemma create_plot_arrays_ok wd :
  ∃ pa, create_plot_arrays wd = Ok pa ∧
    plot_years pa = get_year wd ∧
    plot_temperatures pa = get_temperature wd ∧
    plot_std_lowess pa = get_temperature_smoothed wd ∧
    lowess (get_temperature wd) 5 = Ok (plot_my_lowess pa) ∧
    length (plot_my_lowess pa) = length (data wd) ∧
    plot_diff pa =
      zip_with fsub (get_temperature_smoothed wd) (plot_my_lowess pa).
Proof.
  unfold create_plot_arrays.
  destruct (lowess_entries (get_temperature wd) 5) as (r & Hr & Hlen & _);
    [lia|].
  unfold get_temperature in Hlen. rewrite length_fmap in Hlen.
  rewrite Hr. cbn [bind].
  rewrite np_sub_same_length
    by (unfold get_temperature_smoothed; rewrite length_fmap; lia).
  cbn [bind]. eexists. split; [done|]. simpl. by repeat split.
Qed.

(** X13.  The arrays that [create_plot] computes before it draws (lines
    172-176) are computed without error for every data set, the empty one
    included: the smoothed curve is [lowess] of the temperatures with
    half-width [5], it has one value per entry, and the difference array
    is the reference curve minus the smoothed one, entry by entry. *)
Theorem create_plot_series wd :
  ∃ pa, create_plot_arrays wd = Ok pa ∧
    plot_years pa = get_year wd ∧
    plot_temperatures pa = get_temperature wd ∧
    plot_std_lowess pa = get_temperature_smoothed wd ∧
    lowess (get_temperature wd) 5 = Ok (plot_my_lowess pa) ∧
    length (plot_my_lowess pa) = length (data wd) ∧
    length (plot_diff pa) = length (data wd) ∧
    ∀ i s m, get_temperature_smoothed wd !! i = Some s →
             plot_my_lowess pa !! i = Some m →
             plot_diff pa !! i = Some (fsub s m).
Proof.
  destruct (create_plot_arrays_ok wd)
    as (pa & Hpa & Hy & Ht & Hs & Hlow & Hlen & Hdiff).
  exists pa. repeat (split; [done|]). split.
  - rewrite Hdiff, length_zip_with. unfold get_temperature_smoothed.
    rewrite length_fmap. lia.
  - intros i s m His Him. by rewrite Hdiff, lookup_zip_with, His, Him.
Qed.

(** ** [read_from_file] *)

Lemma entry_of_line_outcome B line y :
  length (str_split B line) = 3%nat → first_int B line = Done y →
  (∃ e, entry_of_line B line = Done e ∧ decodes B line e ∧ year e = y) ∨
  (entry_of_line B line = Fail (Exception InvalidEntry) ∧ bad_number B line).
Proof.
  intros Hlen Hy. unfold entry_of_line, first_int, decodes, bad_number in *.
  destruct (str_split B line) as [|f [|t [|s [|]]]]; try done.
  unfold try_from. destruct (py_int B f) as [y'|] eqn:Hint; [|done].
  injection Hy as ->.
  destruct (py_float B t) as [tv|] eqn:Ht.
  - destruct (py_float B s) as [sv|] eqn:Hs.
    + left. eexists. split; [done|]. split; [|done]. by exists f, t, s.
    + right. split; [done|]. exists f, t, s. auto.
  - right. split; [done|]. exists f, t, s. auto.
Qed.

Lemma entries_of_outcome B lines ys :
  Forall (λ line, length (str_split B line) = 3%nat) lines →
  Forall2 (λ line y, first_int B line = Done y) lines ys →
  (∃ es, entries_of B lines = Done es ∧ Forall2 (decodes B) lines es ∧
         year <$> es = ys) ∨
  (entries_of B lines = Fail (Exception InvalidEntry) ∧
   ∃ line, line ∈ lines ∧ bad_number B line).
Proof.
  intros Hfields Hyears. revert Hfields.
  induction Hyears as [|line y lines ys Hy Hrest IH]; intros Hfields.
  - left. exists []. split; [done|]. split; [constructor|done].
  - inversion Hfields as [|? ? Hline Hlines]; subst. simpl.
    destruct (entry_of_line_outcome B line y Hline Hy)
      as [(e & -> & Hdec & Hye)|[-> Hbad]].
    + simpl. destruct (IH Hlines) as [(es & -> & Hdecs & Hyes)|[-> Hbad]].
      * left. exists (e :: es). split; [done|].
        split; [by constructor|]. by rewrite fmap_cons, Hye, Hyes.
      * right. split; [done|]. destruct Hbad as (l & Hl & Hb).
        exists l. split; [by right|done].
    + right. split; [done|]. exists line. split; [by left|done].
Qed.

(** X14.  Once [validate_input] has accepted the lines, the handler either
    calls [create_plot] on the decoded entries (one entry per line, their
    years are [y0, y0+1, ...], and the arrays [create_plot] starts with are
    computed without error, the smoothed curve having one value per line),
    or, when some second or third field is not a number, ends with the
    exception 'Invalid weather data entry', which is raised outside the
    [try] block. *)
Theorem read_from_file_after_validation B header lines :
  validate_input B lines = Done tt →
  (∃ es y0,
     read_from_file B (header :: lines) = CallsCreatePlot {| data := es |} ∧
     Forall2 (decodes B) lines es ∧
     get_year {| data := es |} = seqZ y0 (Z.of_nat (length lines)) ∧
     ∃ pa, create_plot_arrays {| data := es |} = Ok pa ∧
           length (plot_my_lowess pa) = length lines) ∨
  (read_from_file B (header :: lines) = Uncaught (Exception InvalidEntry) ∧
   ∃ line, line ∈ lines ∧ bad_number B line).
Proof.
  intros Hvalid. unfold read_from_file.
  change (drop 1 (header :: lines)) with lines. rewrite Hvalid.
  apply validate_input_years in Hvalid as (Hlen & Hfields & y0 & Hyears).
  apply years_of_Done in Hyears.
  destruct (entries_of_outcome B lines _ Hfields Hyears)
    as [(es & -> & Hdec & Hes)|[-> Hbad]]; [left|by right].
  assert (length es = length lines) as Hles
    by (symmetry; by eapply Forall2_length).
  assert (WeatherData_init (Some es) = {| data := es |}) as ->
    by (by destruct es).
  exists es, y0. split; [done|]. split; [done|]. split; [done|].
  destruct (create_plot_arrays_ok {| data := es |})
    as (pa & Hpa & _ & _ & _ & _ & Hll & _).
  exists pa. split; [done|]. simpl in Hll. lia.
Qed.

(** X16.  The handler reports a failed load exactly when [validate_input]
    raises on the lines after the first one; since the first line is
    skipped, a file of fewer than six lines is always rejected for having
    too few entries. *)
Theorem read_from_file_rejects B file_lines :
  (∀ e, read_from_file B file_lines = LoadFailed e ↔
        validate_input B (drop 1 file_lines) = Fail e) ∧
  ((length file_lines < 6)%nat →
   read_from_file B file_lines = LoadFailed (Exception TooFewEntries)).
Proof.
  split.
  - intros e. unfold read_from_file.
    destruct (validate_input B (drop 1 file_lines)) as [[]|e'].
    + split; [|done]. by destruct (entries_of B _).
    + split; [by intros [= ->]|by intros [= ->]].
  - intros Hshort. unfold read_from_file, validate_input.
    rewrite decide_True; [done|]. rewrite length_drop. lia.
Qed.

(** ** The ways [validate_input] rejects *)

Lemma check_fields_Fail B lines :
  check_fields B lines = Fail (Exception BadFileFormat) ↔
  Exists (λ line, length (str_split B line) ≠ 3%nat) lines.
Proof.
  induction lines as [|line lines IH]; simpl.
  - split; [done|by inversion 1].
  - destruct (decide (length (str_split B line) = 3%nat)) as [Hlen|Hlen].
    + rewrite IH. split; [by right|]. by inversion 1.
    + split; [by left|done].
Qed.

Lemma years_of_outcome B lines :
  Forall (λ line, length (str_split B line) = 3%nat) lines →
  (∃ ys, years_of B lines = Done ys) ∨
  (years_of B lines = Fail (PyError ValueError) ∧
   Exists (λ line, ∃ f rest, str_split B line = f :: rest ∧
                             py_int B f = None) lines).
Proof.
  induction 1 as [|line lines Hline Hlines IH]; simpl; [left; by eexists|].
  unfold first_int.
  destruct (str_split B line) as [|f rest] eqn:Hsplit; [done|].
  destruct (py_int B f) as [y|] eqn:Hint; simpl.
  - destruct IH as [[ys ->]|[-> Hbad]]; simpl; [left; by eexists|].
    right. split; [done|]. by right.
  - right. split; [done|]. left. by exists f, rest.
Qed.

Lemma years_of_first_fields B lines ys :
  years_of B lines = Done ys →
  Forall2 (λ line y, ∃ f rest, str_split B line = f :: rest ∧
                               py_int B f = Some y) lines ys.
Proof.
  intros Hys%years_of_Done. eapply Forall2_impl; [done|].
  intros line y. unfold first_int.
  destruct (str_split B line) as [|f rest]; [done|].
  destruct (py_int B f) as [y'|] eqn:Hint; [|done].
  intros [= <-]. by exists f, rest.
Qed.

Lemma check_consecutive_Fail years range :
  (∀ i, i ∈ range → (S i < length years)%nat) →
  check_consecutive years range = Fail (Exception YearsNotConsecutive) ↔
  ∃ i this next, i ∈ range ∧ years !! i = Some this ∧
                 years !! S i = Some next ∧ next - this ≠ 1.
Proof.
  induction range as [|i range IH]; intros Hrange; simpl.
  - split; [done|]. intros (i & _ & _ & Hi & _). by apply elem_of_nil in Hi.
  - destruct (lookup_lt_is_Some_2 years (S i)) as [next Hnext];
      [apply Hrange; left|].
    destruct (lookup_lt_is_Some_2 years i) as [this Hthis].
    { pose proof (Hrange i ltac:(left)). lia. }
    rewrite Hnext, Hthis.
    destruct (decide (next - this = 1)) as [Hstep|Hstep].
    + rewrite IH by (intros j Hj; apply Hrange; by right). split.
      * intros (j & a & b & Hj & Ha & Hb & Hab). exists j, a, b.
        split; [by right|done].
      * intros (j & a & b & [->|Hj]%elem_of_cons & Ha & Hb & Hab).
        -- congruence.
        -- by exists j, a, b.
    + split; [|done]. intros _. exists i, this, next. split; [left|done].
Qed.

Lemma check_consecutive_outcome years range :
  (∀ i, i ∈ range → (S i < length years)%nat) →
  check_consecutive years range = Done tt ∨
  check_consecutive years range = Fail (Exception YearsNotConsecutive).
Proof.
  induction range as [|i range IH]; intros Hrange; simpl; [by left|].
  destruct (lookup_lt_is_Some_2 years (S i)) as [next ->];
    [apply Hrange; left|].
  destruct (lookup_lt_is_Some_2 years i) as [this ->].
  { pose proof (Hrange i ltac:(left)). lia. }
  destruct (decide _); [|by right].
  apply IH. intros j Hj. apply Hrange. by right.
Qed.

(** X17.  The exception that [validate_input] raises tells which check
    failed, and the checks come in a fixed order: too few lines; else a
    line without exactly three fields; else a first field that [int]
    rejects (the [ValueError] of the builtin); else two successive years
    that do not differ by one. *)
Theorem validate_input_rejections B lines :
  (validate_input B lines = Fail (Exception TooFewEntries) ↔
     (length lines < 5)%nat) ∧
  (validate_input B lines = Fail (Exception BadFileFormat) ↔
     (5 ≤ length lines)%nat ∧
     Exists (λ line, length (str_split B line) ≠ 3%nat) lines) ∧
  (validate_input B lines = Fail (PyError ValueError) ↔
     (5 ≤ length lines)%nat ∧
     Forall (λ line, length (str_split B line) = 3%nat) lines ∧
     Exists (λ line, ∃ f rest, str_split B line = f :: rest ∧
                               py_int B f = None) lines) ∧
  (validate_input B lines = Fail (Exception YearsNotConsecutive) ↔
     (5 ≤ length lines)%nat ∧
     Forall (λ line, length (str_split B line) = 3%nat) lines ∧
     ∃ years, Forall2 (λ line y, ∃ f rest, str_split B line = f :: rest ∧
                                           py_int B f = Some y) lines years ∧
       ∃ i this next, years !! i = Some this ∧ years !! S i = Some next ∧
                      next - this ≠ 1).
Proof.
  unfold validate_input.
  destruct (decide (length lines < 5)%nat) as [Hfew|Hmany].
  { split; [done|]. repeat split; try done; intros [? _]; lia. }
  destruct (check_fields_outcome B lines) as [Hok|Hbad].
  2: { pose proof Hbad as Hex%check_fields_Fail. rewrite Hbad. simpl.
       assert (¬ Forall (λ line, length (str_split B line) = 3%nat) lines)
         as Hnot.
       { intros Hall. apply Exists_exists in Hex as (l & Hl & Hne).
         rewrite Forall_forall in Hall. by apply Hne, Hall. }
       split; [split; [done|lia]|].
       split; [split; [intros _; split; [lia|done]|done]|].
       split; (split; [done|]); by intros (_ & ? & _). }
  pose proof Hok as Hall%check_fields_Done. rewrite Hok. simpl.
  assert (¬ Exists (λ line, length (str_split B line) ≠ 3%nat) lines) as Hnex.
  { intros (l & Hl & Hne)%Exists_exists.
    rewrite Forall_forall in Hall. by apply Hne, Hall. }
  destruct (years_of_outcome B lines Hall) as [[ys Hys]|[Hfail Hex]].
  2: { rewrite Hfail. simpl.
       split; [split; [done|lia]|].
       split; [split; [done|by intros [_ ?]]|].
       split; [split; [intros _; split; [lia|done]|done]|].
       split; [done|]. intros (_ & _ & years & Hyears & _).
       apply Exists_exists in Hex as (l & Hl & f & rest & Hsplit & Hnone).
       apply list_elem_of_lookup in Hl as [i Hi].
       destruct (Forall2_lookup_l _ _ _ i l Hyears Hi)
         as (y & _ & f' & rest' & Hsplit' & Hsome).
       congruence. }
  rewrite Hys. simpl.
  pose proof (years_of_first_fields B lines ys Hys) as Hfirst.
  assert (∀ years,
    Forall2 (λ line y, ∃ f rest, str_split B line = f :: rest ∧
                                 py_int B f = Some y) lines years →
    years = ys) as Hunique.
  { intros years Hyears. apply list_eq_same_length with (length lines).
    - symmetry. by eapply Forall2_length.
    - symmetry. by eapply Forall2_length.
    - intros i y y' Hi Hy Hy'.
      destruct (Forall2_lookup_r _ _ _ i y Hyears Hy)
        as (l & Hl & f & rest & Hsplit & Hsome).
      destruct (Forall2_lookup_l _ _ _ i l Hfirst Hl)
        as (y'' & Hy'' & f' & rest' & Hsplit' & Hsome').
      congruence. }
  assert (¬ Exists (λ line, ∃ f rest, str_split B line = f :: rest ∧
                                      py_int B f = None) lines) as Hints.
  { intros (l & Hl & f & rest & Hsplit & Hnone)%Exists_exists.
    apply list_elem_of_lookup in Hl as [i Hi].
    destruct (Forall2_lookup_l _ _ _ i l Hfirst Hi)
      as (y & _ & f' & rest' & Hsplit' & Hsome).
    congruence. }
  assert (∀ i, i ∈ seq 0 (length ys - 1) → (S i < length ys)%nat) as Hrange
    by (intros i Hi%elem_of_seq; lia).
  pose proof (check_consecutive_Fail ys _ Hrange) as Hcf.
  assert ((∃ years,
      Forall2 (λ line y, ∃ f rest, str_split B line = f :: rest ∧
                                   py_int B f = Some y) lines years ∧
      ∃ i this next, years !! i = Some this ∧ years !! S i = Some next ∧
                     next - this ≠ 1) →
    ∃ i this next, i ∈ seq 0 (length ys - 1) ∧ ys !! i = Some this ∧
                   ys !! S i = Some next ∧ next - this ≠ 1) as Hgap.
  { intros (years & Hyears & i & this & next & Hthis & Hnext & Hne).
    apply Hunique in Hyears as ->. exists i, this, next.
    split; [|done]. apply elem_of_seq. apply lookup_lt_Some in Hnext. lia. }
  destruct (check_consecutive_outcome ys _ Hrange) as [Hc|Hc]; rewrite Hc.
  - split; [split; [done|lia]|].
    split; [split; [done|by intros [_ ?]]|].
    split; [split; [done|by intros (_ & _ & ?)]|].
    split; [done|]. intros (_ & _ & Hex). apply Hgap, Hcf in Hex. congruence.
  - split; [split; [done|lia]|].
    split; [split; [done|by intros [_ ?]]|].
    split; [split; [done|by intros (_ & _ & ?)]|].
    split; [|done]. intros _. split; [lia|]. split; [done|].
    exists ys. split; [done|].
    apply Hcf in Hc as (i & this & next & _ & Hthis & Hnext & Hne).
    by exists i, this, next.
Qed.

(** ** Runs of the handler on a small file *)

Lemma validate_input_accepts_witness :
  validate_input ascii_builtins
    ["1990 14 15"%string; "1991 13 15"%string; "1992 16 15"%string;
     "1993 15 15"%string; "1994 17 16"%string] = Done tt.
Proof.
  apply (validate_input_accepts ascii_builtins
    ["1990 14 15"%string; "1991 13 15"%string; "1992 16 15"%string;
     "1993 15 15"%string; "1994 17 16"%string]).
  split; [simpl; lia|]. exists 1990. intros i line Hline.
  destruct i as [|[|[|[|[|i]]]]]; simpl in Hline; try discriminate Hline;
    injection Hline as <-; do 3 eexists; split; reflexivity.
Defined.

Lemma read_from_file_after_validation_witness :
  ∃ es y0,
    read_from_file ascii_builtins
      ("year temperature temperature_smoothed"%string ::
       ["1990 14 15"%string; "1991 13 15"%string; "1992 16 15"%string;
        "1993 15 15"%string; "1994 17 16"%string])
    = CallsCreatePlot {| data := es |} ∧
    Forall2 (decodes ascii_builtins)
      ["1990 14 15"%string; "1991 13 15"%string; "1992 16 15"%string;
       "1993 15 15"%string; "1994 17 16"%string] es ∧
    get_year {| data := es |} = seqZ y0 (Z.of_nat 5) ∧
    ∃ pa, create_plot_arrays {| data := es |} = Ok pa ∧
          length (plot_my_lowess pa) = 5%nat.
Proof.
  destruct (read_from_file_after_validation ascii_builtins
    "year temperature temperature_smoothed"%string
    ["1990 14 15"%string; "1991 13 15"%string; "1992 16 15"%string;
     "1993 15 15"%string; "1994 17 16"%string] eq_refl)
    as [Hplot|[Hbad _]].
  - exact Hplot.
  - vm_compute in Hbad. discriminate Hbad.
Defined.

Lemma read_from_file_rejects_witness :
  read_from_file ascii_builtins
    ["year temperature temperature_smoothed"%string; "1990 14 15"%string;
     "1991 13 15"%string] = LoadFailed (Exception TooFewEntries).
Proof.
  apply (proj2 (read_from_file_rejects ascii_builtins
    ["year temperature temperature_smoothed"%string; "1990 14 15"%string;
     "1991 13 15"%string])).
  simpl. lia.
Defined.

Lemma validate_input_rejections_witness :
  validate_input ascii_builtins
    ["1990 14 15"%string; "1991 13 15"%string; "1993 16 15"%string;
     "1994 15 15"%string; "1995 17 16"%string]
  = Fail (Exception YearsNotConsecutive).
Proof.
  apply (proj2 (proj2 (proj2 (validate_input_rejections ascii_builtins
    ["1990 14 15"%string; "1991 13 15"%string; "1993 16 15"%string;
     "1994 15 15"%string; "1995 17 16"%string])))).
  split; [simpl; lia|]. split.
  - repeat constructor.
  - exists [1990; 1991; 1993; 1994; 1995]. split.
    + repeat constructor; do 2 eexists; split; reflexivity.
    + exists 1%nat, 1991, 1993. split; [reflexivity|].
      split; [reflexivity|lia].
Defined.
